(** * Locafy backend: the OAuth hand-off token store, the exchange route
      and the email-verification gate

    A shallow embedding of

    - [src/services/auth/temp-token.ts]: the two in-memory maps
      [tempTokenStore] and [consumedTokens], [generateTempToken],
      [exchangeTempToken], [getTempTokenStoreSize] and the purge timers
      they register with [setTimeout];
    - [src/routes/auth-routes.ts]: the handler of [GET /v1/oauth/exchange];
    - [src/middlewares/email-verification-middleware.ts]:
      [EmailVerificationMiddleware.execute];

    followed by the properties of the hand-off protocol and of the gate.

    Conventions.  Times are milliseconds since the epoch, in [Z], as
    [Date.now()] reports them.  Every reading of that clock which the code
    makes and uses is an argument of the function that makes it:
    [generateTempToken] reads it once, [exchangeTempToken] once for its
    tests and once more for the [consumedAt] it records.  Timers are not
    tied to these readings: Node counts their delays on the clock of its
    event loop.  The outcome of [crypto.randomBytes] is an argument as
    well.  JavaScript strings are represented by their byte (UTF-8) form;
    tokens are plain ASCII. *)

From Stdlib Require Import ZArith NArith Strings.Byte Ascii String List Lia.
From stdpp Require Import gmap strings list fin_maps.

Open Scope Z_scope.
Set Warnings "-register-all".

(* ===================================================================== *)
(** ** JavaScript values and completions *)
(* ===================================================================== *)

(** The payload handed to [generateTempToken] has type [any]. *)
Inductive value :=
  | VUndefined
  | VNull
  | VBool (b : bool)
  | VNum (n : Z)
  | VStr (s : string)
  | VArr (items : list value)
  | VObj (fields : list (string * value)).

(** [ToBoolean]: what [!x] and [if (x)] look at. *)
Definition truthy (v : value) : bool :=
  match v with
  | VUndefined | VNull => false
  | VBool b => b
  | VNum n => negb (n =? 0)
  | VStr s => match s with EmptyString => false | String _ _ => true end
  | VArr _ | VObj _ => true
  end.

Inductive error :=
  | RangeError (msg : string)
  | URIError (msg : string).

(** A call either returns or throws. *)
Inductive completion (A : Type) :=
  | Normal (a : A)
  | Throw (e : error).
Arguments Normal {A} a.
Arguments Throw {A} e.

(* ===================================================================== *)
(** ** Dates *)
(* ===================================================================== *)

(** [new Date(t).toISOString()] throws a [RangeError] unless [t] is a time
    value, that is, within 8.64e15 ms of the epoch. *)
Definition MAX_TIME_VALUE : Z := 8640000000000000.

Definition validTimeValue (t : Z) : bool :=
  (- MAX_TIME_VALUE <=? t) && (t <=? MAX_TIME_VALUE).

Definition invalidTime : error := RangeError "Invalid time value".

(* ===================================================================== *)
(** ** [crypto.randomBytes(n).toString('hex')] *)
(* ===================================================================== *)

(** The entropy source: the [i]-th byte it delivers. *)
Definition entropy := nat -> byte.

Definition randomBytes (n : nat) (src : entropy) : list byte :=
  map src (seq 0 n).
Arguments randomBytes : simpl never.

Definition hexTable : string := "0123456789abcdef".

Definition hexDigit (d : N) : ascii :=
  match String.get (N.to_nat d) hexTable with
  | Some c => c
  | None => "0"%char
  end.

Fixpoint toHex (bs : list byte) : string :=
  match bs with
  | [] => EmptyString
  | b :: rest =>
      String (hexDigit (Byte.to_N b / 16))
        (String (hexDigit (Byte.to_N b mod 16)) (toHex rest))
  end.

(* ===================================================================== *)
(** ** The token store of [temp-token.ts] *)
(* ===================================================================== *)

Definition CONSUMED_TOKEN_RETENTION : Z := 60 * 1000.
Definition TOKEN_EXPIRY : Z := 15 * 60 * 1000.

(** An entry of [tempTokenStore]. *)
Record StoredToken := { data : value; expiresAt : Z }.

(** An entry of [consumedTokens]. *)
Record ConsumedToken := { consumedData : value; consumedAt : Z }.

(** The two closures the module passes to [setTimeout]. *)
Inductive callback :=
  | DeleteTemp (token : string)       (* () => tempTokenStore.delete(token) *)
  | DeleteConsumed (token : string).  (* () => consumedTokens.delete(token) *)

(** A timer registered and not yet run.  [fireAt] is when it is nominally
    due: the last reading of [Date.now()] before its registration, plus the
    delay it was registered with. *)
Record timer := { fireAt : Z; action : callback }.

(** The module state, and the timers it has pending in the event loop. *)
Record store := {
  tempTokenStore : gmap string StoredToken;
  consumedTokens : gmap string ConsumedToken;
  timers : list timer
}.

Definition initial : store :=
  {| tempTokenStore := ∅; consumedTokens := ∅; timers := [] |}.

(** [setTimeout(cb, delay)], [now] being the last reading of the clock. *)
Definition setTimeout (now : Z) (cb : callback) (delay : Z) (s : store) : store :=
  {| tempTokenStore := tempTokenStore s;
     consumedTokens := consumedTokens s;
     timers := timers s ++ [ {| fireAt := now + delay; action := cb |} ] |}.

Definition setTemp (m : gmap string StoredToken) (s : store) : store :=
  {| tempTokenStore := m; consumedTokens := consumedTokens s; timers := timers s |}.

Definition setConsumed (m : gmap string ConsumedToken) (s : store) : store :=
  {| tempTokenStore := tempTokenStore s; consumedTokens := m; timers := timers s |}.

(** [generateTempToken(data)].  The only statement that can throw is the
    [toISOString] of the log line, which comes before the store is touched. *)
Definition generateTempToken (src : entropy) (now : Z) (data : value) (s : store)
  : completion string * store :=
  let token := toHex (randomBytes 32 src) in
  let expiresAt := now + TOKEN_EXPIRY in
  if negb (validTimeValue expiresAt) then (Throw invalidTime, s)
  else
    let s1 := setTemp (<[token := {| data := data; expiresAt := expiresAt |}]>
                         (tempTokenStore s)) s in
    let s2 := setTimeout now (DeleteTemp token) TOKEN_EXPIRY s1 in
    (Normal token, s2).

(** The [console.error] of the not-found branch prints
    [new Date(v.expiresAt).toISOString()] for every entry of the store. *)
Definition allEntriesPrintable (m : gmap string StoredToken) : bool :=
  bool_decide (map_Forall (fun _ v => validTimeValue (expiresAt v) = true) m).

(** Lines 93-100: the tail of the not-found branch. *)
Definition tokenNotFound (s : store) : completion value * store :=
  if allEntriesPrintable (tempTokenStore s)
  then (Normal VNull, s)
  else (Throw invalidTime, s).

(** [exchangeTempToken(token)].  [now] is the reading of [Date.now()] that
    is tested (line 82 on the way through the consumed cache, line 110 on
    the way through the pending store), [stamp] the later reading of line
    121 that is recorded as [consumedAt]. *)
Definition exchangeTempToken (now stamp : Z) (token : string) (s : store)
  : completion value * store :=
  match tempTokenStore s !! token with
  | None =>
      match consumedTokens s !! token with
      | Some consumed =>
          let timeSinceConsumed := now - consumedAt consumed in
          if timeSinceConsumed <? CONSUMED_TOKEN_RETENTION
          then (Normal (consumedData consumed), s)
          else tokenNotFound (setConsumed (delete token (consumedTokens s)) s)
      | None => tokenNotFound s
      end
  | Some stored =>
      if negb (validTimeValue (expiresAt stored)) then (Throw invalidTime, s)
      else if now >? expiresAt stored
      then (Normal VNull, setTemp (delete token (tempTokenStore s)) s)
      else
        let s1 := setConsumed
                    (<[token := {| consumedData := data stored; consumedAt := stamp |}]>
                       (consumedTokens s)) s in
        let s2 := setTimeout stamp (DeleteConsumed token) CONSUMED_TOKEN_RETENTION s1 in
        let s3 := setTemp (delete token (tempTokenStore s2)) s2 in
        (Normal (data stored), s3)
  end.

Definition getTempTokenStoreSize (s : store) : Z :=
  Z.of_nat (size (tempTokenStore s)).

(* ===================================================================== *)
(** ** The event loop around the store *)
(* ===================================================================== *)

(** What can happen to the store: a request handler calls one of the two
    exported functions, or the [k]-th pending timer runs.  A call of
    [exchangeTempToken] comes with the second reading of the clock it will
    make. *)
Inductive event :=
  | CallGenerate (src : entropy) (payload : value)
  | CallExchange (token : string) (stamp : Z)
  | TimerFires (k : nat).

Definition runCallback (cb : callback) (s : store) : store :=
  match cb with
  | DeleteTemp token => setTemp (delete token (tempTokenStore s)) s
  | DeleteConsumed token => setConsumed (delete token (consumedTokens s)) s
  end.

Definition dropTimer (k : nat) (s : store) : store :=
  {| tempTokenStore := tempTokenStore s;
     consumedTokens := consumedTokens s;
     timers := delete k (timers s) |}.

(** The [k]-th pending timer runs.  Its delay is counted on the clock of
    Node's event loop, which is not the one [Date.now()] reads: the callback
    can run while [Date.now()] is still short of [fireAt], or long after.
    So a pending timer may run at any turn. *)
Definition fire (k : nat) (s : store) : option store :=
  match timers s !! k with
  | Some tm => Some (runCallback (action tm) (dropTimer k s))
  | None => None
  end.

(** One turn of the event loop at clock reading [now]; [None] when the event
    cannot happen in [s]. *)
Definition step (now : Z) (e : event) (s : store) : option store :=
  match e with
  | CallGenerate src payload => Some (snd (generateTempToken src now payload s))
  | CallExchange token stamp => Some (snd (exchangeTempToken now stamp token s))
  | TimerFires k => fire k s
  end.

(** [run allowed t s t' s']: from [s], last touched at time [t], a sequence
    of turns, each satisfying [allowed], leads to [s'], last touched at
    [t'].  The clock never goes back. *)
Inductive run (allowed : Z -> event -> store -> Prop)
  : Z -> store -> Z -> store -> Prop :=
  | run_done t s : run allowed t s t s
  | run_step t s now e s1 t' s' :
      t <= now ->
      allowed now e s ->
      step now e s = Some s1 ->
      run allowed now s1 t' s' ->
      run allowed t s t' s'.

(** The turn is a call of [generateTempToken] that returns [T]. *)
Definition issues (T : string) (now : Z) (e : event) (s : store) : Prop :=
  match e with
  | CallGenerate src payload =>
      fst (generateTempToken src now payload s) = Normal T
  | _ => False
  end.

(** The call takes the fresh-grant path of [exchangeTempToken] for [T]:
    the entry is there and not past its expiry. *)
Definition redeems (T : string) (now : Z) (e : event) (s : store) : Prop :=
  (exists stamp, e = CallExchange T stamp) /\
  exists stored, tempTokenStore s !! T = Some stored /\ now <= expiresAt stored.

Definition anything : Z -> event -> store -> Prop := fun _ _ _ => True.

(** Turns that neither return [T] again nor present it for exchange. *)
Definition notAbout (T : string) : Z -> event -> store -> Prop :=
  fun now e s => ~ issues T now e s /\ forall stamp, e <> CallExchange T stamp.

(** Turns that neither return [T] again nor redeem it. *)
Definition notRedeeming (T : string) : Z -> event -> store -> Prop :=
  fun now e s => ~ issues T now e s /\ ~ redeems T now e s.

(** Turns that do not return [T] (again). *)
Definition notIssuing (T : string) : Z -> event -> store -> Prop :=
  fun now e s => ~ issues T now e s.

(* ===================================================================== *)
(** ** The life of one token, as facts about the store *)
(* ===================================================================== *)

(** Every [expiresAt] in the store is a time value. *)
Definition printable (s : store) : Prop :=
  map_Forall (fun _ v => validTimeValue (expiresAt v) = true) (tempTokenStore s).

(** [T] was issued with payload [P] and expiry [E] and not redeemed: it is
    in [tempTokenStore] with exactly these, or it was removed from it; the
    consumed cache does not hold it. *)
Definition pending (T : string) (P : value) (E : Z) (s : store) : Prop :=
  (tempTokenStore s !! T = Some {| data := P; expiresAt := E |} \/
   tempTokenStore s !! T = None) /\
  consumedTokens s !! T = None.

(** [T] was redeemed for payload [P] and stamped [consumedAt = c]: it is in
    the consumed cache with exactly these, or it was evicted from it; the
    pending store does not hold it. *)
Definition redeemed (T : string) (P : value) (c : Z) (s : store) : Prop :=
  tempTokenStore s !! T = None /\
  (consumedTokens s !! T = Some {| consumedData := P; consumedAt := c |} \/
   consumedTokens s !! T = None).

(** [T] is absent from both maps. *)
Definition gone (T : string) (s : store) : Prop :=
  tempTokenStore s !! T = None /\ consumedTokens s !! T = None.

(** Since start-up [generateTempToken] has not returned [T], and at clock
    [t] the call [generateTempToken(P)] returns it and leaves the store
    [s1]. *)
Definition issuedAt (T : string) (P : value) (t : Z) (s1 : store) : Prop :=
  exists t0 tb s0 src,
    run (notIssuing T) t0 initial tb s0 /\ tb <= t /\
    generateTempToken src t P s0 = (Normal T, s1).

(** [T], issued for [P], is redeemed for the first time: a call of
    [exchangeTempToken] takes the fresh-grant path, stamps the cache entry
    with [consumedAt = r] and leaves the store [s2]. *)
Definition redeemedAt (T : string) (P : value) (r : Z) (s2 : store) : Prop :=
  exists t s1 t' s now,
    issuedAt T P t s1 /\ run (notRedeeming T) t s1 t' s /\ t' <= now /\
    redeems T now (CallExchange T r) s /\
    s2 = snd (exchangeTempToken now r T s).

(* ===================================================================== *)
(** ** [encodeURIComponent] and [decodeURIComponent] *)
(* ===================================================================== *)

(** The characters [encodeURIComponent] leaves alone:
    letters, digits and [- _ . ! ~ * ' ( )]. *)
Definition isUnreserved (c : ascii) : bool :=
  let n := N_of_ascii c in
  ((65 <=? n) && (n <=? 90) || (97 <=? n) && (n <=? 122) ||
   (48 <=? n) && (n <=? 57) ||
   bool_decide (n ∈ [45; 95; 46; 33; 126; 42; 39; 40; 41]))%N.

Definition upperHexTable : string := "0123456789ABCDEF".

Definition upperHexDigit (d : N) : ascii :=
  match String.get (N.to_nat d) upperHexTable with
  | Some c => c
  | None => "0"%char
  end.

(** On the byte form of a string every octet outside the unreserved set
    becomes [%XX]. *)
Fixpoint encodeURIComponent (s : string) : string :=
  match s with
  | EmptyString => EmptyString
  | String c rest =>
      if isUnreserved c then String c (encodeURIComponent rest)
      else
        String "%" (String (upperHexDigit (N_of_ascii c / 16))
          (String (upperHexDigit (N_of_ascii c mod 16))
             (encodeURIComponent rest)))
  end.

Definition hexValue (c : ascii) : option N :=
  let n := N_of_ascii c in
  (if (48 <=? n) && (n <=? 57) then Some (n - 48)
   else if (97 <=? n) && (n <=? 102) then Some (n - 87)
   else if (65 <=? n) && (n <=? 70) then Some (n - 55)
   else None)%N.

(** How many octets the lead octet [b] of an escaped character announces;
    [None] for a stray continuation octet and for [F8] and above. *)
Definition leadLength (b : N) : option nat :=
  (if b <? 128 then Some 1%nat
   else if b <? 192 then None
   else if b <? 224 then Some 2%nat
   else if b <? 240 then Some 3%nat
   else if b <? 248 then Some 4%nat
   else None)%N.

Definition isContinuation (b : N) : bool := ((128 <=? b) && (b <? 192))%N.

(** Well-formed UTF-8 for one code point: no overlong form, no surrogate,
    nothing above U+10FFFF. *)
Definition validUtf8 (octets : list N) : bool :=
  match octets with
  | [a; b] => ((194 <=? a) && (a <=? 223) && isContinuation b)%N
  | [a; b; c] =>
      (isContinuation b && isContinuation c &&
       ((a =? 224) && (160 <=? b) ||
        (225 <=? a) && (a <=? 236) ||
        (a =? 237) && (b <=? 159) ||
        (238 <=? a) && (a <=? 239)))%N
  | [a; b; c; d] =>
      (isContinuation b && isContinuation c && isContinuation d &&
       ((a =? 240) && (144 <=? b) ||
        (241 <=? a) && (a <=? 243) ||
        (a =? 244) && (b <=? 143)))%N
  | _ => false
  end.

Definition octetsToString (octets : list N) (tail : string) : string :=
  fold_right (fun b acc => String (ascii_of_N b) acc) tail octets.

(** The decoder, reading left to right: [partial] holds the octets of the
    escaped character being read and [need] how many are still to come.
    [None] stands for the [URIError] on a malformed escape. *)
Fixpoint decodeFrom (partial : list N) (need : nat) (s : string) : option string :=
  match s with
  | EmptyString => match need with O => Some EmptyString | S _ => None end
  | String c rest =>
      if Ascii.eqb c "%" then
        match rest with
        | String h (String l rest') =>
            match hexValue h, hexValue l with
            | Some x, Some y =>
                let b := (16 * x + y)%N in
                match need with
                | O =>
                    match leadLength b with
                    | Some 1%nat => String (ascii_of_N b) <$> decodeFrom [] 0 rest'
                    | Some n => decodeFrom [b] (Nat.pred n) rest'
                    | None => None
                    end
                | S m =>
                    if isContinuation b then
                      match m with
                      | O =>
                          if validUtf8 (partial ++ [b])
                          then octetsToString (partial ++ [b]) <$> decodeFrom [] 0 rest'
                          else None
                      | S _ => decodeFrom (partial ++ [b]) m rest'
                      end
                    else None
                end
            | _, _ => None
            end
        | _ => None
        end
      else
        match need with
        | O => String c <$> decodeFrom [] 0 rest
        | S _ => None
        end
  end.

Definition decodeURIComponent (s : string) : option string := decodeFrom [] 0 s.

(** Character classes of strings. *)
Fixpoint allChars (p : ascii -> bool) (s : string) : bool :=
  match s with
  | EmptyString => true
  | String c rest => p c && allChars p rest
  end.

(** [0-9a-f]. *)
Definition isLowerHex (c : ascii) : bool :=
  let n := N_of_ascii c in
  ((48 <=? n) && (n <=? 57) || (97 <=? n) && (n <=? 102))%N.

Definition notPercent (c : ascii) : bool := negb (Ascii.eqb c "%").

(* ===================================================================== *)
(** ** The handler of [GET /v1/oauth/exchange] *)
(* ===================================================================== *)

(** [req.query.code]: absent, a string, or what the query parser makes of
    repeated and bracketed parameters (an array or an object). *)
Inductive queryParam :=
  | QAbsent
  | QString (s : string)
  | QStructured.

Record response := { httpStatus : Z; body : value }.

Definition errorBody (code : Z) (message : string) : value :=
  VObj [("code"%string, VNum code); ("status"%string, VStr "error");
        ("message"%string, VStr message)].

Definition successBody (payload : value) : value :=
  VObj [("code"%string, VNum 200); ("status"%string, VStr "success");
        ("data"%string, payload)].

Definition respond (status : Z) (json : value) : response :=
  {| httpStatus := status; body := json |}.

(** Lines 87-100: decode once more, and keep the code as it came when
    decoding throws. *)
Definition decodedCode (code : string) : string :=
  match decodeURIComponent code with
  | Some testDecode => if negb (String.eqb testDecode code) then testDecode else code
  | None => code
  end.

Definition exchangeHandler (now stamp : Z) (code : queryParam) (s : store)
  : completion response * store :=
  match code with
  | QString (String _ _ as code) =>
      match exchangeTempToken now stamp (decodedCode code) s with
      | (Throw e, s') => (Throw e, s')
      | (Normal data, s') =>
          if negb (truthy data) then
            let storeSize := getTempTokenStoreSize s' in
            if storeSize =? 0 then
              (Normal (respond 400 (errorBody 400
                 "Authentication code expired or invalid. The server may have restarted. Please try logging in again.")), s')
            else
              (Normal (respond 400 (errorBody 400
                 "Invalid or expired code. Please try logging in again.")), s')
          else (Normal (respond 200 (successBody data)), s')
      end
  | _ => (Normal (respond 400 (errorBody 400 "Missing or invalid code")), s)
  end.

(* ===================================================================== *)
(** ** [EmailVerificationMiddleware.execute] *)
(* ===================================================================== *)

Inductive Role := CUSTOMER | VENDOR | ADMIN.

(** What [UserRepository.findById] selects. *)
Record User := {
  id : string;
  name : option string;
  email : option string;
  createdAt : Z;
  role : Role;
  emailVerified : option Z
}.

(** [req.user], set by the authentication middleware. *)
Record principal := { sub : string; principalRole : string }.

Record request := { user : option principal; rest : value }.

(** The promise of [findById] resolves to a row or [null], or rejects. *)
Inductive lookup :=
  | Resolves (row : option User)
  | Rejects (reason : string).

Definition database := string -> lookup.

Inductive gateOutcome :=
  | Responds (r : response)
  | CallsNext (req : request).

(** [!userId] for [userId = authReq.user?.sub]. *)
Definition noUserId (req : request) : bool :=
  match user req with
  | None => true
  | Some p => match sub p with EmptyString => true | String _ _ => false end
  end.

Definition userIdOf (req : request) : string :=
  match user req with
  | None => EmptyString
  | Some p => sub p
  end.

(** The result pairs the [findById] queries the call made with what it did
    to the request. *)
Definition execute (db : database) (req : request) : list string * gateOutcome :=
  if noUserId req then
    ([], Responds (respond 401 (errorBody 401 "Authentication required")))
  else
    let userId := userIdOf req in
    match db userId with
    | Rejects _ =>
        ([userId], Responds (respond 500 (errorBody 500 "Failed to verify email status")))
    | Resolves None =>
        ([userId], Responds (respond 404 (errorBody 404 "User not found")))
    | Resolves (Some user) =>
        match emailVerified user with
        | None =>
            ([userId], Responds (respond 403 (errorBody 403
               "Email verification required. Please verify your email to participate in discussions and favorites.")))
        | Some _ => ([userId], CallsNext req)
        end
    end.

(* ===================================================================== *)
(** ** A worked hand-off *)
(* ===================================================================== *)

(** The scenario of the specification, on concrete data: a session bundle
    is issued, then either purged by its timer at the instant of expiry or
    redeemed five milliseconds after issuance, the clock ticking once more
    before the cache entry is stamped. *)
Definition zeros : entropy := fun _ => x00.
Definition sevens : entropy := fun _ => x77.

Definition tokenZero : string := toHex (randomBytes 32 zeros).
Definition tokenSeven : string := toHex (randomBytes 32 sevens).

Definition session : value := VObj [("userId"%string, VStr "u1")].

Definition issueTime : Z := 1700000000000.

Definition afterIssue : store :=
  snd (generateTempToken zeros issueTime session initial).

Definition afterPurge : store :=
  runCallback (DeleteTemp tokenZero) (dropTimer 0 afterIssue).

(** Meanwhile another client is handed a token of its own and redeems it. *)
Definition afterTraffic : store :=
  snd (exchangeTempToken (issueTime + 2) (issueTime + 2) tokenSeven
         (snd (generateTempToken sevens (issueTime + 1) VNull afterIssue))).

(** [tokenZero] with its first character percent-encoded. *)
Definition escapedZero : string :=
  String "%" (String "3" (String "0" (toHex (randomBytes 31 zeros) ++ "0"))).

Definition afterRedeem : store :=
  snd (exchangeTempToken (issueTime + 5) (issueTime + 6) tokenZero afterIssue).

(** The eviction timer of the cache entry runs. *)
Definition afterEviction : store :=
  runCallback (DeleteConsumed tokenZero) (dropTimer 1 afterRedeem).

(** Four accounts for the gate: verified, unverified, unknown to the
    database, and one whose lookup fails. *)
Definition sampleUser (uid : string) (verifiedAt : option Z) : User :=
  {| id := uid; name := Some "Ana"%string; email := Some "ana@example.com"%string;
     createdAt := issueTime; role := CUSTOMER; emailVerified := verifiedAt |}.

Definition sampleDb : database :=
  fun uid =>
    if String.eqb uid "verified" then Resolves (Some (sampleUser uid (Some issueTime)))
    else if String.eqb uid "unverified" then Resolves (Some (sampleUser uid None))
    else if String.eqb uid "offline" then Rejects "connection refused"
    else Resolves None.

Definition requestOf (uid : string) : request :=
  {| user := Some {| sub := uid; principalRole := "CUSTOMER" |}; rest := VNull |}.

Definition anonymousRequest : request := {| user := None; rest := VNull |}.

(* ===================================================================== *)
(** ** Whole-store facts *)
(* ===================================================================== *)

(** The token a turn is about: the one the call draws or is given, or the
    one the timer that runs was registered for. *)
Definition tokenOfCallback (cb : callback) : string :=
  match cb with
  | DeleteTemp token => token
  | DeleteConsumed token => token
  end.

Definition subject (e : event) (s : store) : option string :=
  match e with
  | CallGenerate src _ => Some (toHex (randomBytes 32 src))
  | CallExchange token _ => Some token
  | TimerFires k => tokenOfCallback <$> (action <$> timers s !! k)
  end.

(** Every entry of either map still has a timer pending whose callback
    deletes it. *)
Definition timersCover (s : store) : Prop :=
  (forall T, is_Some (tempTokenStore s !! T) ->
             exists tm, tm ∈ timers s /\ action tm = DeleteTemp T) /\
  (forall T, is_Some (consumedTokens s !! T) ->
             exists tm, tm ∈ timers s /\ action tm = DeleteConsumed T).

(** The store once all the timers pending in [s] have run, in the order of
    their registration and with no call in between. *)
Definition runCallbacks (cbs : list callback) (s : store) : store :=
  fold_left (fun acc cb => runCallback cb acc) cbs s.

Definition drain (s : store) : store :=
  runCallbacks (action <$> timers s)
    {| tempTokenStore := tempTokenStore s;
       consumedTokens := consumedTokens s;
       timers := [] |}.

(** [T], issued for [P] with expiry [E], is in one of the two phases of its
    life: not redeemed, or redeemed and stamped with some [consumedAt]. *)
Definition alive (T : string) (P : value) (E : Z) (s : store) : Prop :=
  pending T P E s \/ exists c, redeemed T P c s.

(* ===================================================================== *)
(** ** [AuthController.OAuthCallback] and the Google callback route *)
(* ===================================================================== *)

(** [v.k] for the property names the callback reads ([status], [data],
    [message], [code]), which no built-in prototype defines: the field of an
    object, [undefined] on everything else that is not nullish. *)
Fixpoint lookupField (k : string) (fields : list (string * value)) : value :=
  match fields with
  | [] => VUndefined
  | (k', v) :: rest => if String.eqb k k' then v else lookupField k rest
  end.

Definition getField (v : value) (k : string) : value :=
  match v with
  | VObj fields => lookupField k fields
  | _ => VUndefined
  end.

Definition nullish (v : value) : bool :=
  match v with
  | VUndefined | VNull => true
  | _ => false
  end.

(** [v === "..."] *)
Definition strictEqStr (v : value) (s : string) : bool :=
  match v with
  | VStr x => String.eqb x s
  | _ => false
  end.

(** [a || d] *)
Definition orElse (a d : value) : value := if truthy a then a else d.

(** What the callback takes from the platform: [x.toString()] on a value
    that is not nullish, and [new URLSearchParams(record).toString()]. *)
Record platform := {
  methodToString : value -> completion value;
  searchParams : list (string * value) -> completion string
}.

(** [res.redirect(url)] *)
Inductive reply := Redirect (url : string).

(** [process.env.FRONTEND_URL || 'http://localhost:3000'] *)
Definition frontendURLOf (env : option string) : string :=
  match env with
  | Some (String _ _ as url) => url
  | _ => "http://localhost:3000"
  end.

Definition callbackPath : string := "/oauth-callback".

Definition oauthFailed : value := VStr "OAuth authentication failed".

(** The redirect of the three error branches. *)
Definition errorRedirect (pf : platform) (frontendURL : string) (message code : value)
  : completion reply :=
  match searchParams pf [("status"%string, VStr "error");
                         ("message"%string, message);
                         ("code"%string, code)] with
  | Normal query => Normal (Redirect (frontendURL ++ callbackPath ++ "?" ++ query))
  | Throw e => Throw e
  end.

(** [OAuthCallback(req, res)], with [oauthResult = req.user]. *)
Definition OAuthCallback (pf : platform) (env : option string) (src : entropy)
    (now : Z) (oauthResult : value) (s : store) : completion reply * store :=
  let result :=
    if nullish oauthResult
    then VObj [("code"%string, VNum 500); ("status"%string, VStr "error");
               ("message"%string, oauthFailed)]
    else oauthResult in
  let frontendURL := frontendURLOf env in
  if strictEqStr (getField result "status") "success" && truthy (getField result "data")
  then
    match generateTempToken src now (getField result "data") s with
    | (Normal tempCode, s') =>
        (Normal (Redirect (frontendURL ++ callbackPath ++ "?code="
                             ++ encodeURIComponent tempCode)), s')
    | (Throw e, s') => (Throw e, s')
    end
  else
    let message := orElse (getField result "message") oauthFailed in
    let code := getField result "code" in
    match (if nullish code then Normal VUndefined else methodToString pf code) with
    | Normal text => (errorRedirect pf frontendURL message (orElse text (VStr "500")), s)
    | Throw e => (Throw e, s)
    end.

(** The handlers of [GET /v1/google/callback]: the callback given to
    [passport.authenticate] receives [(err, user, info)]; on success it sets
    [req.user = user] and calls [next()], which is [OAuthCallback]. *)
Definition googleCallback (pf : platform) (env : option string) (src : entropy)
    (now : Z) (err user info : value) (s : store) : completion reply * store :=
  let frontendURL := frontendURLOf env in
  if truthy err then
    (errorRedirect pf frontendURL (orElse (getField err "message") oauthFailed)
       (VStr "500"), s)
  else if negb (truthy user) then
    (errorRedirect pf frontendURL
       (orElse (if nullish info then VUndefined else getField info "message") oauthFailed)
       (VStr "401"), s)
  else OAuthCallback pf env src now user s.

(** A platform for the examples: numbers print as ["500"], and the
    serialisation keeps only the parameter names. *)
Definition samplePlatform : platform :=
  {| methodToString := fun v => Normal (match v with VStr x => VStr x | _ => VStr "500" end);
     searchParams := fun kvs => Normal (String.concat "&" (map fst kvs)) |}.

Definition sampleResult : value :=
  VObj [("code"%string, VNum 200); ("status"%string, VStr "success");
        ("data"%string, session)].

(* ===================================================================== *)
(** * Properties *)
(* ===================================================================== *)

(** ** Runs of the event loop *)

Lemma run_clock allowed t s t' s' : run allowed t s t' s' -> t <= t'.
Proof. induction 1; lia. Qed.

Lemma run_weaken (A B : Z -> event -> store -> Prop) t s t' s' :
  (forall now e s0, A now e s0 -> B now e s0) ->
  run A t s t' s' -> run B t s t' s'.
Proof. intros HAB. induction 1; econstructor; eauto. Qed.

Lemma run_app allowed t s t1 s1 t2 s2 :
  run allowed t s t1 s1 -> run allowed t1 s1 t2 s2 -> run allowed t s t2 s2.
Proof. induction 1; intros; [assumption | econstructor; eauto]. Qed.

(** ** Timers *)

Lemma fire_inv k s s1 :
  fire k s = Some s1 ->
  exists tm, timers s !! k = Some tm /\
             s1 = runCallback (action tm) (dropTimer k s).
Proof.
  unfold fire. destruct (timers s !! k) as [tm|]; [|discriminate].
  intros [= <-]. by exists tm.
Qed.

(** ** The two outcomes of [generateTempToken] *)

Lemma generate_cases src now P s :
  (validTimeValue (now + TOKEN_EXPIRY) = false /\
   generateTempToken src now P s = (Throw invalidTime, s)) \/
  (validTimeValue (now + TOKEN_EXPIRY) = true /\
   generateTempToken src now P s =
     (Normal (toHex (randomBytes 32 src)),
      setTimeout now (DeleteTemp (toHex (randomBytes 32 src))) TOKEN_EXPIRY
        (setTemp (<[toHex (randomBytes 32 src) :=
                     {| data := P; expiresAt := now + TOKEN_EXPIRY |}]>
                    (tempTokenStore s)) s))).
Proof.
  unfold generateTempToken.
  destruct (validTimeValue _); [right | left]; split; reflexivity.
Qed.

(** ** Every stored expiry is a time value *)

Lemma allEntriesPrintable_true s : printable s -> allEntriesPrintable (tempTokenStore s) = true.
Proof. intros H. unfold allEntriesPrintable. apply bool_decide_eq_true. exact H. Qed.

Lemma printable_delete token s :
  printable s -> printable (setTemp (delete token (tempTokenStore s)) s).
Proof. unfold printable. simpl. apply map_Forall_delete. Qed.

Lemma tokenNotFound_printable s :
  printable s -> tokenNotFound s = (Normal VNull, s).
Proof. intros H. unfold tokenNotFound. now rewrite allEntriesPrintable_true. Qed.

Lemma generate_printable src now payload s :
  printable s -> printable (snd (generateTempToken src now payload s)).
Proof.
  intros H. unfold generateTempToken.
  destruct (validTimeValue (now + TOKEN_EXPIRY)) eqn:Hv; simpl; [|assumption].
  unfold printable. simpl. apply map_Forall_insert_2; assumption.
Qed.

Lemma exchange_printable now stamp token s :
  printable s -> printable (snd (exchangeTempToken now stamp token s)).
Proof.
  intros H. unfold exchangeTempToken, tokenNotFound.
  repeat (case_match; simpl; try assumption);
    unfold printable in *; simpl; try apply map_Forall_delete; assumption.
Qed.

Lemma step_printable now e s s1 :
  step now e s = Some s1 -> printable s -> printable s1.
Proof.
  destruct e as [src payload|token stamp|k]; simpl.
  - intros [= <-]. apply generate_printable.
  - intros [= <-]. apply exchange_printable.
  - intros Hf Hp. apply fire_inv in Hf as (tm & _ & ->).
    destruct (action tm); unfold printable in *; simpl;
      [apply map_Forall_delete|]; assumption.
Qed.

Lemma run_printable allowed t s t' s' :
  run allowed t s t' s' -> printable s -> printable s'.
Proof.
  induction 1; intros; eauto using step_printable.
Qed.

Lemma initial_printable : printable initial.
Proof. unfold printable, initial. simpl. apply map_Forall_empty. Qed.

(** ** One turn, seen from a token it does not issue *)

Lemma tokenNotFound_store s : snd (tokenNotFound s) = s.
Proof. unfold tokenNotFound. now destruct (allEntriesPrintable _). Qed.

(** A turn that does not issue [T] leaves its pending entry as it is or
    removes it, and leaves its cache entry as it is or removes it, unless
    the turn redeems [T]. *)
Lemma step_entries T now e s s1 :
  ~ issues T now e s -> step now e s = Some s1 ->
  (tempTokenStore s1 !! T = tempTokenStore s !! T \/ tempTokenStore s1 !! T = None) /\
  (redeems T now e s \/
   consumedTokens s1 !! T = consumedTokens s !! T \/ consumedTokens s1 !! T = None).
Proof.
  intros Hni Hstep. destruct e as [src payload|U stamp|k]; cbn [step issues] in *.
  - destruct (generate_cases src now payload s) as [[_ Hg]|[_ Hg]];
      rewrite Hg in Hni, Hstep; clear Hg;
      set (V := toHex (randomBytes 32 src)) in *; clearbody V;
      simpl in Hni, Hstep; injection Hstep as <-; [by auto|].
    assert (Hne : V <> T) by (intros Heq; apply Hni; f_equal; exact Heq).
    simpl. split; [left; by rewrite lookup_insert_ne | right; by left].
  - injection Hstep as <-. unfold exchangeTempToken.
    destruct (decide (U = T)) as [->|Hne].
    + destruct (tempTokenStore s !! T) as [stored|] eqn:Hin.
      * destruct (validTimeValue (expiresAt stored)); simpl; [|by auto].
        destruct (now >? expiresAt stored) eqn:Hgt; simpl.
        { split; [right; apply lookup_delete_eq | right; by left]. }
        split; [right; apply lookup_delete_eq|]. left.
        split; [by exists stamp|]. exists stored. split; [exact Hin | lia].
      * destruct (consumedTokens s !! T) as [consumed|] eqn:Hc.
        { destruct (_ <? _); simpl; [by auto|]. rewrite tokenNotFound_store. simpl.
          split; [by left|]. right. right. apply lookup_delete_eq. }
        rewrite tokenNotFound_store. by auto.
    + destruct (tempTokenStore s !! U) as [stored|] eqn:Hin.
      * destruct (validTimeValue (expiresAt stored)); simpl; [|by auto].
        destruct (now >? expiresAt stored); simpl.
        { split; [left; by rewrite lookup_delete_ne | right; by left]. }
        split; [left; by rewrite lookup_delete_ne|].
        right. left. by rewrite lookup_insert_ne.
      * destruct (consumedTokens s !! U) as [consumed|] eqn:Hc.
        { destruct (_ <? _); simpl; [by auto|]. rewrite tokenNotFound_store. simpl.
          split; [by left|]. right. left. by rewrite lookup_delete_ne. }
        rewrite tokenNotFound_store. by auto.
  - apply fire_inv in Hstep as (tm & _ & ->).
    destruct (action tm) as [U|U]; simpl.
    + split; [|right; by left].
      destruct (decide (U = T)) as [->|Hne];
        [right; apply lookup_delete_eq | left; by rewrite lookup_delete_ne].
    + split; [by left|]. right.
      destruct (decide (U = T)) as [->|Hne];
        [right; apply lookup_delete_eq | left; by rewrite lookup_delete_ne].
Qed.

(** ** A token absent from both maps stays absent until it is issued *)

Lemma step_gone T now e s s1 :
  ~ issues T now e s -> step now e s = Some s1 -> gone T s -> gone T s1.
Proof.
  intros Hni Hstep [Htemp Hcons].
  destruct (step_entries T now e s s1 Hni Hstep) as [Ht Hc]. split.
  - destruct Ht as [Ht|Ht]; congruence.
  - destruct Hc as [[_ (stored & Hin & _)]|[Hc|Hc]]; congruence.
Qed.

Lemma run_gone T t s t' s' :
  run (notIssuing T) t s t' s' -> gone T s -> gone T s'.
Proof. induction 1; intros; eauto using step_gone. Qed.

Lemma initial_gone T : gone T initial.
Proof. split; apply lookup_empty. Qed.

Lemma exchange_gone now stamp T s :
  gone T s -> printable s -> exchangeTempToken now stamp T s = (Normal VNull, s).
Proof.
  intros [Htemp Hcons] Hp. unfold exchangeTempToken.
  rewrite Htemp, Hcons. by apply tokenNotFound_printable.
Qed.

(** ** A token that was issued and not redeemed *)

Lemma generate_pending src now P s T s1 :
  generateTempToken src now P s = (Normal T, s1) ->
  gone T s ->
  T = toHex (randomBytes 32 src) /\
  validTimeValue (now + TOKEN_EXPIRY) = true /\
  tempTokenStore s1 !! T = Some {| data := P; expiresAt := now + TOKEN_EXPIRY |} /\
  pending T P (now + TOKEN_EXPIRY) s1.
Proof.
  intros Hgen [Htemp Hcons].
  destruct (generate_cases src now P s) as [[_ Hg]|[Hv Hg]]; rewrite Hg in Hgen;
    [discriminate|].
  clear Hg. revert Hgen. generalize (toHex (randomBytes 32 src)). intros V Hgen.
  injection Hgen as <- <-. simpl.
  repeat split; try assumption; [apply lookup_insert_eq|].
  left. apply lookup_insert_eq.
Qed.

Lemma step_pending T P E now e s s1 :
  ~ issues T now e s -> ~ redeems T now e s ->
  step now e s = Some s1 -> pending T P E s -> pending T P E s1.
Proof.
  intros Hni Hnr Hstep [Htemp Hcons].
  destruct (step_entries T now e s s1 Hni Hstep) as [Ht Hc]. split.
  - destruct Ht as [Ht|Ht]; [rewrite Ht; exact Htemp | by right].
  - destruct Hc as [Hred|[Hc|Hc]]; [contradiction | congruence | exact Hc].
Qed.

Lemma run_pending T P E t s t' s' :
  run (notRedeeming T) t s t' s' -> pending T P E s -> pending T P E s'.
Proof.
  induction 1 as [|t s now e s1 t' s' Hle [Hni Hnr] Hstep Hrun IH]; intros;
    eauto using step_pending.
Qed.

(** ** A token that was redeemed *)

Lemma step_redeemed T P c now e s s1 :
  ~ issues T now e s ->
  step now e s = Some s1 -> redeemed T P c s -> redeemed T P c s1.
Proof.
  intros Hni Hstep [Htemp Hcons].
  destruct (step_entries T now e s s1 Hni Hstep) as [Ht Hc]. split.
  - destruct Ht as [Ht|Ht]; congruence.
  - destruct Hc as [[_ (stored & Hin & _)]|[Hc|Hc]];
      [congruence | rewrite Hc; exact Hcons | by right].
Qed.

Lemma run_redeemed T P c t s t' s' :
  run (notIssuing T) t s t' s' -> redeemed T P c s -> redeemed T P c s'.
Proof. induction 1; intros; eauto using step_redeemed. Qed.

(** ** What one call of [exchangeTempToken] does, branch by branch *)

Lemma exchange_fresh now stamp T s stored :
  tempTokenStore s !! T = Some stored ->
  validTimeValue (expiresAt stored) = true ->
  now <= expiresAt stored ->
  exchangeTempToken now stamp T s =
    (Normal (data stored),
     {| tempTokenStore := delete T (tempTokenStore s);
        consumedTokens :=
          <[T := {| consumedData := data stored; consumedAt := stamp |}]> (consumedTokens s);
        timers := timers s ++
          [ {| fireAt := stamp + CONSUMED_TOKEN_RETENTION; action := DeleteConsumed T |} ] |}).
Proof.
  intros Hin Hv Hle. unfold exchangeTempToken. rewrite Hin, Hv. simpl.
  destruct (now >? expiresAt stored) eqn:Hgt; [lia|]. reflexivity.
Qed.

Lemma exchange_expired now stamp T s stored :
  tempTokenStore s !! T = Some stored ->
  validTimeValue (expiresAt stored) = true ->
  expiresAt stored < now ->
  exchangeTempToken now stamp T s =
    (Normal VNull, setTemp (delete T (tempTokenStore s)) s).
Proof.
  intros Hin Hv Hlt. unfold exchangeTempToken. rewrite Hin, Hv. simpl.
  destruct (now >? expiresAt stored) eqn:Hgt; [reflexivity | lia].
Qed.

Lemma exchange_cached now stamp T s consumed :
  tempTokenStore s !! T = None ->
  consumedTokens s !! T = Some consumed ->
  now - consumedAt consumed < CONSUMED_TOKEN_RETENTION ->
  exchangeTempToken now stamp T s = (Normal (consumedData consumed), s).
Proof.
  intros Hout Hin Hlt. unfold exchangeTempToken. rewrite Hout, Hin.
  destruct (_ <? _) eqn:H; [reflexivity | lia].
Qed.

Lemma exchange_stale now stamp T s consumed :
  tempTokenStore s !! T = None ->
  consumedTokens s !! T = Some consumed ->
  CONSUMED_TOKEN_RETENTION <= now - consumedAt consumed ->
  printable s ->
  exchangeTempToken now stamp T s =
    (Normal VNull, setConsumed (delete T (consumedTokens s)) s).
Proof.
  intros Hout Hin Hge Hp. unfold exchangeTempToken. rewrite Hout, Hin.
  destruct (_ <? _) eqn:H; [lia|]. by apply tokenNotFound_printable.
Qed.

(** ** From the history of a token to the facts about the store *)

Lemma issuedAt_facts T P t s1 :
  issuedAt T P t s1 ->
  pending T P (t + TOKEN_EXPIRY) s1 /\
  tempTokenStore s1 !! T = Some {| data := P; expiresAt := t + TOKEN_EXPIRY |} /\
  validTimeValue (t + TOKEN_EXPIRY) = true /\
  printable s1.
Proof.
  intros (t0 & tb & s0 & src & Hrun & Hle & Hgen).
  pose proof (run_gone _ _ _ _ _ Hrun (initial_gone T)) as Hun.
  pose proof (run_printable _ _ _ _ _ Hrun initial_printable) as Hp.
  destruct (generate_pending _ _ _ _ _ _ Hgen Hun) as (HT & Hv & Hin & Hpend).
  repeat split; try assumption; try apply Hpend.
  replace s1 with (snd (generateTempToken src t P s0)) by now rewrite Hgen.
  by apply generate_printable.
Qed.

Lemma fresh_exchange_redeemed T P E s now stamp :
  pending T P E s ->
  tempTokenStore s !! T = Some {| data := P; expiresAt := E |} ->
  validTimeValue E = true ->
  now <= E ->
  redeemed T P stamp (snd (exchangeTempToken now stamp T s)).
Proof.
  intros _ Hin Hv Hle.
  rewrite (exchange_fresh now stamp T s _ Hin Hv Hle). simpl.
  split; simpl; [apply lookup_delete_eq | left; apply lookup_insert_eq].
Qed.

Lemma redeemedAt_facts T P r s2 :
  redeemedAt T P r s2 -> redeemed T P r s2 /\ printable s2.
Proof.
  intros (t & s1 & t' & s & now & Hiss & Hrun & Hle & [_ (stored & Hin & Hfresh)] & ->).
  destruct (issuedAt_facts _ _ _ _ Hiss) as (Hpend & _ & Hv & Hp).
  pose proof (run_pending _ _ _ _ _ _ _ Hrun Hpend) as Hpend'.
  pose proof (run_printable _ _ _ _ _ Hrun Hp) as Hp'.
  split; [|by apply exchange_printable].
  destruct Hpend' as [[Hin'|Hout] Hcons]; [|congruence].
  rewrite Hin' in Hin. injection Hin as <-. simpl in Hfresh.
  eapply fresh_exchange_redeemed; eauto. by split; [left|].
Qed.

Lemma step_temp_shrinks T now e s s1 :
  ~ issues T now e s -> step now e s = Some s1 ->
  tempTokenStore s1 !! T = tempTokenStore s !! T \/ tempTokenStore s1 !! T = None.
Proof. intros Hni Hstep. apply (step_entries T now e s s1 Hni Hstep). Qed.

Lemma run_entry_fixed T entry t s t' s' :
  run (notIssuing T) t s t' s' ->
  (forall st, tempTokenStore s !! T = Some st -> st = entry) ->
  forall st, tempTokenStore s' !! T = Some st -> st = entry.
Proof.
  induction 1 as [|t s now e s1 t' s' Hle Hni Hstep Hrun IH]; [auto|].
  intros Hfix. apply IH. intros st Hst.
  destruct (step_temp_shrinks T _ _ _ _ Hni Hstep) as [Heq|Hnone];
    [rewrite Heq in Hst; auto | congruence].
Qed.

(** ** The scenario *)

Lemma scenario_issued : issuedAt tokenZero session issueTime afterIssue.
Proof.
  exists issueTime, issueTime, initial, zeros.
  split; [constructor|]. split; [lia|]. reflexivity.
Qed.

Lemma scenario_redeems :
  redeems tokenZero (issueTime + 5) (CallExchange tokenZero (issueTime + 6)) afterIssue.
Proof.
  split; [by eexists|].
  exists {| data := session; expiresAt := issueTime + TOKEN_EXPIRY |}.
  split; [reflexivity | cbn [expiresAt]; unfold issueTime, TOKEN_EXPIRY; lia].
Qed.

Lemma scenario_redeemed : redeemedAt tokenZero session (issueTime + 6) afterRedeem.
Proof.
  exists issueTime, afterIssue, issueTime, afterIssue, (issueTime + 5).
  split; [exact scenario_issued|]. split; [constructor|]. split; [lia|].
  split; [exact scenario_redeems | reflexivity].
Qed.

(** The example of the specification: redeemed at once, again five seconds
    later, and ninety seconds later. *)
Example worked_hand_off :
  fst (exchangeTempToken (issueTime + 5) (issueTime + 6) tokenZero afterIssue)
    = Normal session /\
  fst (exchangeTempToken (issueTime + 5000) (issueTime + 5000) tokenZero afterRedeem)
    = Normal session /\
  fst (exchangeTempToken (issueTime + 90000) (issueTime + 90000) tokenZero afterRedeem)
    = Normal VNull.
Proof. repeat split; reflexivity. Qed.

Lemma scenario_other_traffic :
  run (notAbout tokenZero) issueTime afterIssue (issueTime + 2) afterTraffic.
Proof.
  eapply (run_step _ _ _ (issueTime + 1) (CallGenerate sevens VNull));
    [lia | split; simpl; [vm_compute; discriminate | discriminate] | reflexivity |].
  eapply (run_step _ _ _ (issueTime + 2) (CallExchange tokenSeven (issueTime + 2)));
    [lia | split; simpl; [tauto | intros stamp; vm_compute; discriminate] | reflexivity |].
  constructor.
Qed.

Lemma notAbout_notRedeeming T t s t' s' :
  run (notAbout T) t s t' s' -> run (notRedeeming T) t s t' s'.
Proof.
  apply run_weaken. intros now e s0 [H1 H2]. split; [exact H1|].
  intros [[stamp ->] _]. by apply (H2 stamp).
Qed.

(* ===================================================================== *)
(** * The hand-off protocol *)
(* ===================================================================== *)

(** The first exchange of a token that is still pending and not past its
    expiry. *)
Lemma fresh_exchange T P t s1 t' s now stamp :
  issuedAt T P t s1 ->
  run (notAbout T) t s1 t' s ->
  now <= t + TOKEN_EXPIRY ->
  is_Some (tempTokenStore s !! T) ->
  exists s',
    exchangeTempToken now stamp T s = (Normal P, s') /\
    tempTokenStore s' !! T = None /\
    consumedTokens s' !! T = Some {| consumedData := P; consumedAt := stamp |} /\
    timers s' = timers s ++
      [ {| fireAt := stamp + CONSUMED_TOKEN_RETENTION; action := DeleteConsumed T |} ].
Proof.
  intros Hiss Hrun Hnow [x Hx].
  destruct (issuedAt_facts _ _ _ _ Hiss) as (Hpend & _ & Hv & _).
  pose proof (run_pending _ _ _ _ _ _ _ (notAbout_notRedeeming _ _ _ _ _ Hrun) Hpend)
    as [Htemp _].
  assert (Hin : tempTokenStore s !! T
                = Some {| data := P; expiresAt := t + TOKEN_EXPIRY |}).
  { destruct Htemp as [Hin|Hout]; [exact Hin | congruence]. }
  eexists. split.
  - apply (exchange_fresh now stamp T s _ Hin); simpl; [exact Hv | lia].
  - simpl. split; [apply lookup_delete_eq|]. split; [apply lookup_insert_eq | reflexivity].
Qed.

(** C1, as stated, fails.  The token is issued at [issueTime]; its purge
    timer, registered with the same delay as the lifetime, runs in the very
    millisecond [expiresAt]; a first exchange arriving in that same
    millisecond is "not later than expiresAt" and yet finds the entry gone
    and returns [null] instead of the payload. *)
Lemma first_exchange_at_expiry_after_purge :
  issuedAt tokenZero session issueTime afterIssue /\
  run (notAbout tokenZero) issueTime afterIssue (issueTime + TOKEN_EXPIRY) afterPurge /\
  issueTime + TOKEN_EXPIRY <= issueTime + TOKEN_EXPIRY /\
  exchangeTempToken (issueTime + TOKEN_EXPIRY) (issueTime + TOKEN_EXPIRY)
      tokenZero afterPurge
    = (Normal VNull, afterPurge) /\
  VNull <> session.
Proof.
  split; [exact scenario_issued|]. split.
  - eapply (run_step _ _ _ (issueTime + TOKEN_EXPIRY) (TimerFires 0));
      [unfold TOKEN_EXPIRY; lia | split; simpl; [tauto | discriminate]
      | reflexivity | constructor].
  - split; [lia|]. split; [reflexivity | discriminate].
Qed.

(** C1 (amended).  A token [T] issued for payload [P] at clock [t] expires at
    [t + TOKEN_EXPIRY].  The first call of [exchangeTempToken(T)] that reads
    a clock not later than that, and finds [T] still in [tempTokenStore]
    (the purge timer has not removed it), returns [P], removes [T] from
    [tempTokenStore], records it in [consumedTokens] with [consumedAt] set
    to the reading of the clock it takes for that purpose, and registers
    the eviction timer of the cache entry. *)
Theorem first_exchange_returns_payload T P t s1 t' s now stamp :
  issuedAt T P t s1 ->
  run (notAbout T) t s1 t' s ->
  now <= t + TOKEN_EXPIRY ->
  is_Some (tempTokenStore s !! T) ->
  exists s',
    exchangeTempToken now stamp T s = (Normal P, s') /\
    tempTokenStore s' !! T = None /\
    consumedTokens s' !! T = Some {| consumedData := P; consumedAt := stamp |} /\
    timers s' = timers s ++
      [ {| fireAt := stamp + CONSUMED_TOKEN_RETENTION; action := DeleteConsumed T |} ].
Proof. apply fresh_exchange. Qed.

Lemma first_exchange_returns_payload_witness :
  exists s',
    exchangeTempToken (issueTime + TOKEN_EXPIRY) (issueTime + TOKEN_EXPIRY + 1)
        tokenZero afterTraffic = (Normal session, s') /\
    tempTokenStore s' !! tokenZero = None /\
    consumedTokens s' !! tokenZero
      = Some {| consumedData := session; consumedAt := issueTime + TOKEN_EXPIRY + 1 |} /\
    timers s' = timers afterTraffic ++
      [ {| fireAt := issueTime + TOKEN_EXPIRY + 1 + CONSUMED_TOKEN_RETENTION;
           action := DeleteConsumed tokenZero |} ].
Proof.
  apply (first_exchange_returns_payload tokenZero session issueTime afterIssue
           (issueTime + 2) afterTraffic).
  - exact scenario_issued.
  - exact scenario_other_traffic.
  - lia.
  - by eexists.
Defined.

(** C2, as stated, fails.  The token is redeemed and its cache entry
    stamped [consumedAt = issueTime + 6]; the eviction timer, whose 60 s
    Node counts on its own clock, runs when [Date.now()] shows
    [consumedAt + 59999]; a second exchange in that millisecond comes less
    than 60 s after the redemption and yet is answered [null]. *)
Lemma duplicate_exchange_after_early_eviction :
  redeemedAt tokenZero session (issueTime + 6) afterRedeem /\
  run (notIssuing tokenZero) (issueTime + 6) afterRedeem
      (issueTime + 6 + 59999) afterEviction /\
  issueTime + 6 + 59999 < issueTime + 6 + CONSUMED_TOKEN_RETENTION /\
  exchangeTempToken (issueTime + 6 + 59999) (issueTime + 6 + 59999)
      tokenZero afterEviction
    = (Normal VNull, afterEviction) /\
  VNull <> session.
Proof.
  split; [exact scenario_redeemed|]. split.
  - eapply (run_step _ _ _ (issueTime + 6 + 59999) (TimerFires 1));
      [lia | exact (fun H => H) | reflexivity | constructor].
  - split; [unfold CONSUMED_TOKEN_RETENTION; lia|].
    split; [reflexivity | discriminate].
Qed.

(** C2 (amended).  When [T], issued for [P], is redeemed and its cache
    entry stamped [consumedAt = r], the redeeming call returns [P]; a second
    call made right after it, with nothing in between, at a clock less than
    [CONSUMED_TOKEN_RETENTION] (60 s) past [r], returns [P] again; and so
    does every later call at such a clock that still finds the cache entry
    (the eviction timer has not removed it), whatever else the server did
    in between.  These calls leave the store as it is. *)
Theorem duplicate_exchange_within_grace T P t s1 t1 s now0 r :
  issuedAt T P t s1 ->
  run (notRedeeming T) t s1 t1 s ->
  t1 <= now0 ->
  redeems T now0 (CallExchange T r) s ->
  fst (exchangeTempToken now0 r T s) = Normal P /\
  (forall now stamp,
      now < r + CONSUMED_TOKEN_RETENTION ->
      exchangeTempToken now stamp T (snd (exchangeTempToken now0 r T s))
        = (Normal P, snd (exchangeTempToken now0 r T s))) /\
  (forall t' s' now stamp,
      run (notIssuing T) r (snd (exchangeTempToken now0 r T s)) t' s' ->
      is_Some (consumedTokens s' !! T) ->
      now < r + CONSUMED_TOKEN_RETENTION ->
      exchangeTempToken now stamp T s' = (Normal P, s')).
Proof.
  intros Hiss Hrun1 Hle1 Hred.
  assert (Hat : redeemedAt T P r (snd (exchangeTempToken now0 r T s))).
  { exists t, s1, t1, s, now0. repeat split; try assumption; apply Hred. }
  destruct (redeemedAt_facts _ _ _ _ Hat) as [Hredeemed _].
  assert (Hlater : forall t' s' now stamp,
      run (notIssuing T) r (snd (exchangeTempToken now0 r T s)) t' s' ->
      is_Some (consumedTokens s' !! T) ->
      now < r + CONSUMED_TOKEN_RETENTION ->
      exchangeTempToken now stamp T s' = (Normal P, s')).
  { intros t' s' now stamp Hrun2 [x Hx] Hlt.
    pose proof (run_redeemed _ _ _ _ _ _ _ Hrun2 Hredeemed) as [Hout Hcons].
    destruct Hcons as [Hin|Hnone]; [|congruence].
    apply (exchange_cached now stamp T s' _ Hout Hin). simpl. lia. }
  destruct (issuedAt_facts _ _ _ _ Hiss) as (Hpend & _ & Hv & _).
  pose proof (run_pending _ _ _ _ _ _ _ Hrun1 Hpend) as [Htemp _].
  destruct Hred as [_ (stored & Hin & Hfresh)].
  destruct Htemp as [Hin'|Hout]; [|congruence].
  rewrite Hin' in Hin. injection Hin as <-. simpl in Hfresh.
  pose proof (exchange_fresh now0 r T s _ Hin' Hv Hfresh) as Hfirst.
  split; [by rewrite Hfirst|]. split; [|exact Hlater].
  intros now stamp Hlt. apply (Hlater r _ now stamp); [constructor| |exact Hlt].
  rewrite Hfirst. simpl. rewrite lookup_insert_eq. by eexists.
Qed.

Lemma duplicate_exchange_within_grace_witness :
  fst (exchangeTempToken (issueTime + 5) (issueTime + 6) tokenZero afterIssue)
    = Normal session /\
  (forall now stamp,
      now < issueTime + 6 + CONSUMED_TOKEN_RETENTION ->
      exchangeTempToken now stamp tokenZero afterRedeem = (Normal session, afterRedeem)) /\
  (forall t' s' now stamp,
      run (notIssuing tokenZero) (issueTime + 6) afterRedeem t' s' ->
      is_Some (consumedTokens s' !! tokenZero) ->
      now < issueTime + 6 + CONSUMED_TOKEN_RETENTION ->
      exchangeTempToken now stamp tokenZero s' = (Normal session, s')).
Proof.
  apply (duplicate_exchange_within_grace tokenZero session issueTime afterIssue
           issueTime afterIssue (issueTime + 5) (issueTime + 6)).
  - exact scenario_issued.
  - constructor.
  - lia.
  - exact scenario_redeems.
Defined.

(** C3.  A token [T] issued at clock [t] and never redeemed: every call of
    [exchangeTempToken(T)] made after [t + TOKEN_EXPIRY] returns [null] and
    leaves [T] in neither map; and from then on, as long as the generator
    does not draw the very same string again, [T] stays absent and every
    call of [exchangeTempToken(T)], at any time, returns [null]. *)
Theorem unredeemed_token_expires T P t s1 t' s now stamp :
  issuedAt T P t s1 ->
  run (notRedeeming T) t s1 t' s ->
  t' <= now ->
  t + TOKEN_EXPIRY < now ->
  exists s',
    exchangeTempToken now stamp T s = (Normal VNull, s') /\
    gone T s' /\
    forall t2 s2 now2 stamp2,
      run (notIssuing T) now s' t2 s2 ->
      gone T s2 /\ exchangeTempToken now2 stamp2 T s2 = (Normal VNull, s2).
Proof.
  intros Hiss Hrun Hle Hlate.
  destruct (issuedAt_facts _ _ _ _ Hiss) as (Hpend & _ & Hv & Hp).
  pose proof (run_pending _ _ _ _ _ _ _ Hrun Hpend) as [Htemp Hcons].
  pose proof (run_printable _ _ _ _ _ Hrun Hp) as Hp'.
  assert (Hex : exists s', exchangeTempToken now stamp T s = (Normal VNull, s') /\
                           gone T s' /\ printable s').
  { destruct Htemp as [Hin|Hout].
    - eexists. split; [apply (exchange_expired now stamp T s _ Hin); simpl; [exact Hv | lia]|].
      split; [split; simpl; [apply lookup_delete_eq | exact Hcons]|].
      by apply printable_delete.
    - exists s. split; [apply exchange_gone; [by split | exact Hp']|].
      by repeat split. }
  destruct Hex as (s' & Hcall & Hgone & Hps'). exists s'.
  split; [exact Hcall|]. split; [exact Hgone|].
  intros t2 s2 now2 stamp2 Hrun2.
  pose proof (run_gone _ _ _ _ _ Hrun2 Hgone) as Hgone2.
  split; [exact Hgone2|]. apply exchange_gone; [exact Hgone2|].
  eapply run_printable; eauto.
Qed.

Lemma unredeemed_token_expires_witness :
  exists s',
    exchangeTempToken (issueTime + TOKEN_EXPIRY + 1) (issueTime + TOKEN_EXPIRY + 1)
        tokenZero afterIssue
      = (Normal VNull, s') /\
    gone tokenZero s' /\
    forall t2 s2 now2 stamp2,
      run (notIssuing tokenZero) (issueTime + TOKEN_EXPIRY + 1) s' t2 s2 ->
      gone tokenZero s2 /\
      exchangeTempToken now2 stamp2 tokenZero s2 = (Normal VNull, s2).
Proof.
  apply (unredeemed_token_expires tokenZero session issueTime afterIssue
           issueTime afterIssue (issueTime + TOKEN_EXPIRY + 1)).
  - exact scenario_issued.
  - constructor.
  - unfold TOKEN_EXPIRY. lia.
  - lia.
Defined.

(** C4.  Once [T] has been redeemed and stamped [consumedAt = r], every
    call of [exchangeTempToken(T)] made at or after
    [r + CONSUMED_TOKEN_RETENTION] (60 s) returns [null] and leaves [T] out
    of the consumed cache (and out of the pending map). *)
Theorem consumed_token_evicted_after_grace T P r s2 t' s now stamp :
  redeemedAt T P r s2 ->
  run (notIssuing T) r s2 t' s ->
  r + CONSUMED_TOKEN_RETENTION <= now ->
  exists s',
    exchangeTempToken now stamp T s = (Normal VNull, s') /\
    consumedTokens s' !! T = None /\
    tempTokenStore s' !! T = None.
Proof.
  intros Hat Hrun Hlate.
  destruct (redeemedAt_facts _ _ _ _ Hat) as [Hredeemed Hp].
  pose proof (run_redeemed _ _ _ _ _ _ _ Hrun Hredeemed) as [Hout Hcons].
  pose proof (run_printable _ _ _ _ _ Hrun Hp) as Hp'.
  destruct Hcons as [Hin|Hnone].
  - eexists. split; [apply (exchange_stale now stamp T s _ Hout Hin); [simpl; lia | exact Hp']|].
    simpl. split; [apply lookup_delete_eq | exact Hout].
  - exists s. split; [apply exchange_gone; [by split | exact Hp']|]. by split.
Qed.

Lemma consumed_token_evicted_after_grace_witness :
  exists s',
    exchangeTempToken (issueTime + 6 + CONSUMED_TOKEN_RETENTION)
        (issueTime + 6 + CONSUMED_TOKEN_RETENTION) tokenZero afterRedeem
      = (Normal VNull, s') /\
    consumedTokens s' !! tokenZero = None /\
    tempTokenStore s' !! tokenZero = None.
Proof.
  apply (consumed_token_evicted_after_grace tokenZero session (issueTime + 6)
           afterRedeem (issueTime + 6) afterRedeem).
  - exact scenario_redeemed.
  - constructor.
  - lia.
Defined.

(** C6.  A string [S] that [generateTempToken] has never returned since
    start-up is not found: in every store the server can be in,
    [exchangeTempToken(S)] returns [null] and changes nothing.  The lookup
    is [Map.get] on the string as received, so this holds for every string
    that differs from the issued tokens, however close to one of them. *)
Theorem unknown_token_not_found S t0 t s now stamp :
  run (notIssuing S) t0 initial t s ->
  exchangeTempToken now stamp S s = (Normal VNull, s).
Proof.
  intros Hrun. apply exchange_gone.
  - eapply run_gone; [exact Hrun | apply initial_gone].
  - eapply run_printable; [exact Hrun | apply initial_printable].
Qed.

Lemma unknown_token_not_found_witness :
  decodeURIComponent escapedZero = Some tokenZero /\
  exchangeTempToken (issueTime + 5) (issueTime + 6) escapedZero afterIssue
    = (Normal VNull, afterIssue).
Proof.
  split; [reflexivity|].
  apply (unknown_token_not_found escapedZero issueTime issueTime afterIssue).
  eapply (run_step _ _ _ issueTime (CallGenerate zeros session));
    [lia | simpl; vm_compute; discriminate | reflexivity | constructor].
Defined.

(** C7.  Called at clock [t] with payload [P], [generateTempToken] returns
    the hexadecimal form [T] of the 32 random bytes it drew, and leaves a
    store in which [T] maps to exactly [{data = P, expiresAt = t + 15 min}],
    the consumed cache is as before, and one more timer is pending: the
    purge of [T], due at [expiresAt], which deletes the entry.  The entry is never modified
    afterwards: as long as [T] is not drawn again, [tempTokenStore] holds
    [T] with this very payload and expiry, or not at all.  ([t + 15 min] is
    assumed to be a time value of the platform, as it is for every clock
    reading before the year 275760.) *)
Theorem generate_stores_entry src t P s :
  validTimeValue (t + TOKEN_EXPIRY) = true ->
  exists T s',
    T = toHex (randomBytes 32 src) /\
    generateTempToken src t P s = (Normal T, s') /\
    TOKEN_EXPIRY = 15 * 60 * 1000 /\
    tempTokenStore s' =
      <[T := {| data := P; expiresAt := t + TOKEN_EXPIRY |}]> (tempTokenStore s) /\
    consumedTokens s' = consumedTokens s /\
    timers s' = timers s ++
      [ {| fireAt := t + TOKEN_EXPIRY; action := DeleteTemp T |} ] /\
    (forall s2, tempTokenStore (runCallback (DeleteTemp T) s2) !! T = None) /\
    forall t2 s2 stored,
      run (notIssuing T) t s' t2 s2 ->
      tempTokenStore s2 !! T = Some stored ->
      stored = {| data := P; expiresAt := t + TOKEN_EXPIRY |}.
Proof.
  intros Hv. eexists _, _. split; [reflexivity|]. split.
  { unfold generateTempToken. rewrite Hv. reflexivity. }
  simpl. repeat split.
  { intros s2. apply lookup_delete_eq. }
  intros t2 s2 stored Hrun. eapply run_entry_fixed; [exact Hrun|].
  simpl. intros st. rewrite lookup_insert_eq. congruence.
Qed.

Lemma generate_stores_entry_witness :
  exists T s',
    T = tokenZero /\
    generateTempToken zeros issueTime session initial = (Normal T, s') /\
    TOKEN_EXPIRY = 15 * 60 * 1000 /\
    tempTokenStore s' =
      <[T := {| data := session; expiresAt := issueTime + TOKEN_EXPIRY |}]> ∅ /\
    consumedTokens s' = ∅ /\
    timers s' = [] ++
      [ {| fireAt := issueTime + TOKEN_EXPIRY; action := DeleteTemp T |} ] /\
    (forall s2, tempTokenStore (runCallback (DeleteTemp T) s2) !! T = None) /\
    forall t2 s2 stored,
      run (notIssuing T) issueTime s' t2 s2 ->
      tempTokenStore s2 !! T = Some stored ->
      stored = {| data := session; expiresAt := issueTime + TOKEN_EXPIRY |}.
Proof.
  apply (generate_stores_entry zeros issueTime session initial). reflexivity.
Defined.

(** C8.  In every store the server can reach from start-up, for every
    input string and at every clock reading, [exchangeTempToken] returns
    normally; a string found in neither map yields [null] with the store
    unchanged, and a pending entry past its expiry yields [null]: none of
    these conditions raises an exception. *)
Theorem exchange_never_throws t0 t s now stamp token :
  run anything t0 initial t s ->
  (exists v s', exchangeTempToken now stamp token s = (Normal v, s')) /\
  (gone token s -> exchangeTempToken now stamp token s = (Normal VNull, s)) /\
  (forall stored,
      tempTokenStore s !! token = Some stored -> expiresAt stored < now ->
      fst (exchangeTempToken now stamp token s) = Normal VNull).
Proof.
  intros Hrun.
  pose proof (run_printable _ _ _ _ _ Hrun initial_printable) as Hp.
  assert (Hstored : forall stored, tempTokenStore s !! token = Some stored ->
                                   validTimeValue (expiresAt stored) = true).
  { intros stored Hin. exact (Hp _ _ Hin). }
  split; [|split].
  - destruct (tempTokenStore s !! token) as [stored|] eqn:Hin.
    + destruct (Z_le_gt_dec now (expiresAt stored)) as [Hle|Hgt].
      * eexists _, _. apply (exchange_fresh now stamp token s _ Hin); auto.
      * eexists _, _. apply (exchange_expired now stamp token s _ Hin); auto; lia.
    + destruct (consumedTokens s !! token) as [consumed|] eqn:Hc.
      * destruct (Z_lt_ge_dec (now - consumedAt consumed) CONSUMED_TOKEN_RETENTION)
          as [Hlt|Hge].
        { eexists _, _. by apply (exchange_cached now stamp token s _ Hin Hc). }
        eexists _, _. apply (exchange_stale now stamp token s _ Hin Hc); [lia | exact Hp].
      * eexists _, _. apply exchange_gone; [by split | exact Hp].
  - intros Hgone. by apply exchange_gone.
  - intros stored Hin Hlate.
    by rewrite (exchange_expired now stamp token s _ Hin (Hstored _ Hin) Hlate).
Qed.

Lemma exchange_never_throws_witness :
  (exists v s',
      exchangeTempToken (issueTime + 5) (issueTime + 6) "abc123" afterIssue
        = (Normal v, s')) /\
  (gone "abc123" afterIssue ->
   exchangeTempToken (issueTime + 5) (issueTime + 6) "abc123" afterIssue
     = (Normal VNull, afterIssue)) /\
  (forall stored,
      tempTokenStore afterIssue !! "abc123"%string = Some stored ->
      expiresAt stored < issueTime + 5 ->
      fst (exchangeTempToken (issueTime + 5) (issueTime + 6) "abc123" afterIssue)
        = Normal VNull).
Proof.
  apply (exchange_never_throws issueTime issueTime afterIssue).
  eapply (run_step _ _ _ issueTime (CallGenerate zeros session));
    [lia | exact I | reflexivity | constructor].
Defined.
(* ===================================================================== *)
(** * Tokens on the wire *)
(* ===================================================================== *)

Lemma toHex_length bs : String.length (toHex bs) = (2 * length bs)%nat.
Proof. induction bs as [|b bs IH]; simpl; [reflexivity | rewrite IH; lia]. Qed.

Lemma hexDigits_of_byte b :
  isLowerHex (hexDigit (Byte.to_N b / 16)) && isLowerHex (hexDigit (Byte.to_N b mod 16)) = true.
Proof. destruct b; vm_compute; reflexivity. Qed.

Lemma toHex_lowerHex bs : allChars isLowerHex (toHex bs) = true.
Proof.
  induction bs as [|b bs IH]; simpl; [reflexivity|].
  rewrite IH, andb_true_r. apply hexDigits_of_byte.
Qed.

Lemma randomBytes_length n src : length (randomBytes n src) = n.
Proof. unfold randomBytes. by rewrite length_map, length_seq. Qed.

Lemma lowerHex_plain c : isLowerHex c = true -> isUnreserved c = true /\ notPercent c = true.
Proof.
  destruct c as [[] [] [] [] [] [] [] []]; vm_compute; intros H;
    first [discriminate H | split; reflexivity].
Qed.

Lemma allChars_impl (p q : ascii -> bool) s :
  (forall c, p c = true -> q c = true) -> allChars p s = true -> allChars q s = true.
Proof.
  intros Hpq. induction s as [|c s IH]; simpl; [reflexivity|].
  intros [Hc Hs]%andb_true_iff. rewrite (Hpq _ Hc), (IH Hs). reflexivity.
Qed.

Lemma encode_unreserved s : allChars isUnreserved s = true -> encodeURIComponent s = s.
Proof.
  induction s as [|c s IH]; simpl; [reflexivity|].
  intros [Hc Hs]%andb_true_iff. rewrite Hc, (IH Hs). reflexivity.
Qed.

Lemma decode_without_percent s : allChars notPercent s = true -> decodeURIComponent s = Some s.
Proof.
  unfold decodeURIComponent. induction s as [|c s IH]; simpl; [reflexivity|].
  intros [Hc Hs]%andb_true_iff. unfold notPercent in Hc.
  apply negb_true_iff in Hc. rewrite Hc, (IH Hs). reflexivity.
Qed.

Lemma decodedCode_without_percent s : allChars notPercent s = true -> decodedCode s = s.
Proof.
  intros H. unfold decodedCode. rewrite (decode_without_percent _ H).
  by rewrite String.eqb_refl.
Qed.

Lemma generate_token src t P s T s' :
  generateTempToken src t P s = (Normal T, s') -> T = toHex (randomBytes 32 src).
Proof.
  unfold generateTempToken. destruct (validTimeValue _); simpl; [|discriminate].
  by intros [= <- _].
Qed.

Lemma issued_token_plain src : allChars notPercent (toHex (randomBytes 32 src)) = true.
Proof.
  eapply allChars_impl; [|apply toHex_lowerHex]. intros c Hc. by apply lowerHex_plain.
Qed.

(** C10.  Whatever the payload, the token [generateTempToken] returns is a
    string of 64 characters, each one of [0-9a-f].  Hence
    [encodeURIComponent] maps it to itself, [decodeURIComponent] maps it to
    itself without throwing, and the code the exchange route finally
    presents to [exchangeTempToken] is the token as issued. *)
Theorem issued_token_is_hex src t P s T s' :
  generateTempToken src t P s = (Normal T, s') ->
  String.length T = 64%nat /\
  allChars isLowerHex T = true /\
  encodeURIComponent T = T /\
  decodeURIComponent T = Some T /\
  decodedCode T = T.
Proof.
  intros ->%generate_token.
  split; [by rewrite toHex_length, randomBytes_length|].
  split; [apply toHex_lowerHex|].
  split; [|split].
  - apply encode_unreserved. eapply allChars_impl; [|apply toHex_lowerHex].
    intros c Hc. by apply lowerHex_plain.
  - apply decode_without_percent, issued_token_plain.
  - apply decodedCode_without_percent, issued_token_plain.
Qed.

Lemma issued_token_is_hex_witness :
  String.length tokenZero = 64%nat /\
  allChars isLowerHex tokenZero = true /\
  encodeURIComponent tokenZero = tokenZero /\
  decodeURIComponent tokenZero = Some tokenZero /\
  decodedCode tokenZero = tokenZero.
Proof.
  apply (issued_token_is_hex zeros issueTime session initial tokenZero afterIssue).
  reflexivity.
Defined.

(* ===================================================================== *)
(** * The exchange route *)
(* ===================================================================== *)

Lemma issued_token_nonempty src :
  exists c rest, toHex (randomBytes 32 src) = String c rest.
Proof. eexists _, _. reflexivity. Qed.

(** What the route answers when [exchangeTempToken] returns a falsy value. *)
Lemma handler_on_falsy now stamp c rest s v s' :
  exchangeTempToken now stamp (decodedCode (String c rest)) s = (Normal v, s') ->
  truthy v = false ->
  exists msg,
    exchangeHandler now stamp (QString (String c rest)) s
      = (Normal (respond 400 (errorBody 400 msg)), s') /\
    msg = (if (getTempTokenStoreSize s' =? 0)%Z
           then "Authentication code expired or invalid. The server may have restarted. Please try logging in again."
           else "Invalid or expired code. Please try logging in again.")%string.
Proof.
  intros Hcall Hv. unfold exchangeHandler. rewrite Hcall, Hv. simpl.
  destruct (getTempTokenStoreSize s' =? 0); eexists; split; reflexivity.
Qed.

(** C9.  Let the payload [P] be falsy ([null], [0], the empty string, ...).
    A token validly issued for [P] and presented to the exchange route
    while fresh (still in the pending store and not past its expiry) is
    redeemed, and yet answered with status 400 and a not-found body; and
    any code found in neither map, such as one that was never issued,
    presented afterwards gets the very same response: the route cannot tell
    "issued but valueless" from "not found". *)
Theorem valueless_token_looks_not_found P T t s1 t' s now stamp :
  truthy P = false ->
  issuedAt T P t s1 ->
  run (notAbout T) t s1 t' s ->
  now <= t + TOKEN_EXPIRY ->
  is_Some (tempTokenStore s !! T) ->
  exists r s',
    exchangeHandler now stamp (QString T) s = (Normal r, s') /\
    consumedTokens s' !! T = Some {| consumedData := P; consumedAt := stamp |} /\
    httpStatus r = 400 /\
    (exists msg, body r = errorBody 400 msg) /\
    forall now2 stamp2 c rest,
      gone (decodedCode (String c rest)) s' ->
      exchangeHandler now2 stamp2 (QString (String c rest)) s' = (Normal r, s').
Proof.
  intros Hfalsy Hiss Hrun Hfresh Hstill.
  destruct (fresh_exchange T P t s1 t' s now stamp Hiss Hrun Hfresh Hstill)
    as (s' & Hcall & _ & Hcons & _).
  destruct (issuedAt_facts _ _ _ _ Hiss) as (_ & _ & _ & Hp).
  assert (Hp' : printable s').
  { replace s' with (snd (exchangeTempToken now stamp T s)) by now rewrite Hcall.
    apply exchange_printable.
    eapply run_printable; [exact Hrun | exact Hp]. }
  destruct Hiss as (_ & _ & s0 & src & _ & _ & ->%generate_token).
  destruct (issued_token_nonempty src) as (c & rest & HT).
  pose proof (decodedCode_without_percent _ (issued_token_plain src)) as Hdec.
  rewrite HT in *.
  rewrite <- Hdec in Hcall.
  destruct (handler_on_falsy _ _ _ _ _ _ _ Hcall Hfalsy) as (msg & Hresp & Hmsg).
  exists (respond 400 (errorBody 400 msg)), s'.
  split; [exact Hresp|]. split; [exact Hcons|]. split; [reflexivity|].
  split; [by exists msg|].
  intros now2 stamp2 c2 rest2 Hgone.
  pose proof (exchange_gone now2 stamp2 _ s' Hgone Hp') as Hcall2.
  destruct (handler_on_falsy _ _ _ _ _ _ _ Hcall2 eq_refl) as (msg2 & Hresp2 & Hmsg2).
  rewrite Hresp2. congruence.
Qed.

Lemma valueless_token_looks_not_found_witness :
  truthy VNull = false /\ truthy (VNum 0) = false /\ truthy (VStr "") = false /\
  exists r s',
    exchangeHandler (issueTime + 5) (issueTime + 6) (QString tokenZero)
      (snd (generateTempToken zeros issueTime VNull initial)) = (Normal r, s') /\
    consumedTokens s' !! tokenZero
      = Some {| consumedData := VNull; consumedAt := issueTime + 6 |} /\
    httpStatus r = 400 /\
    (exists msg, body r = errorBody 400 msg) /\
    forall now2 stamp2 c rest,
      gone (decodedCode (String c rest)) s' ->
      exchangeHandler now2 stamp2 (QString (String c rest)) s' = (Normal r, s').
Proof.
  repeat (split; [reflexivity|]).
  apply (valueless_token_looks_not_found VNull tokenZero issueTime
           (snd (generateTempToken zeros issueTime VNull initial)) issueTime).
  - reflexivity.
  - exists issueTime, issueTime, initial, zeros.
    split; [constructor|]. split; [lia | reflexivity].
  - constructor.
  - unfold TOKEN_EXPIRY. lia.
  - by eexists.
Defined.

(* ===================================================================== *)
(** * The email-verification gate *)
(* ===================================================================== *)

(** C5.  The case analysis of the gate.  With no user id on the request
    ([req.user] absent, or a [sub] that JavaScript's [!] takes for absent)
    it answers 401 and issues no query, whatever the database holds.
    Otherwise it issues the one query [findById(userId)] and answers 500
    when the query fails, 404 when there is no such user, 403 with the
    fixed message when the user's [emailVerified] is unset, and calls
    [next()] on the request as it came when it is set. *)
Theorem gate_case_analysis db req :
  (noUserId req = true ->
   forall db', execute db' req =
     ([], Responds (respond 401 (errorBody 401 "Authentication required")))) /\
  (noUserId req = false ->
   fst (execute db req) = [userIdOf req] /\
   (forall reason, db (userIdOf req) = Rejects reason ->
      snd (execute db req) =
        Responds (respond 500 (errorBody 500 "Failed to verify email status"))) /\
   (db (userIdOf req) = Resolves None ->
      snd (execute db req) = Responds (respond 404 (errorBody 404 "User not found"))) /\
   (forall u, db (userIdOf req) = Resolves (Some u) -> emailVerified u = None ->
      snd (execute db req) =
        Responds (respond 403 (errorBody 403
          "Email verification required. Please verify your email to participate in discussions and favorites."))) /\
   (forall u at_, db (userIdOf req) = Resolves (Some u) -> emailVerified u = Some at_ ->
      snd (execute db req) = CallsNext req)).
Proof.
  split.
  - intros Hno db'. unfold execute. by rewrite Hno.
  - intros Hid. unfold execute. rewrite Hid. split.
    + destruct (db (userIdOf req)) as [[u|]|]; [destruct (emailVerified u)|..]; reflexivity.
    + repeat split.
      * intros reason ->. reflexivity.
      * intros ->. reflexivity.
      * intros u -> ->. reflexivity.
      * intros u at_ -> ->. reflexivity.
Qed.

Lemma gate_case_analysis_witness :
  execute sampleDb anonymousRequest =
    ([], Responds (respond 401 (errorBody 401 "Authentication required"))) /\
  execute sampleDb (requestOf "") =
    ([], Responds (respond 401 (errorBody 401 "Authentication required"))) /\
  snd (execute sampleDb (requestOf "offline")) =
    Responds (respond 500 (errorBody 500 "Failed to verify email status")) /\
  snd (execute sampleDb (requestOf "nobody")) =
    Responds (respond 404 (errorBody 404 "User not found")) /\
  snd (execute sampleDb (requestOf "unverified")) =
    Responds (respond 403 (errorBody 403
      "Email verification required. Please verify your email to participate in discussions and favorites.")) /\
  snd (execute sampleDb (requestOf "verified")) = CallsNext (requestOf "verified").
Proof.
  split; [exact (proj1 (gate_case_analysis sampleDb anonymousRequest) eq_refl sampleDb)|].
  split; [exact (proj1 (gate_case_analysis sampleDb (requestOf "")) eq_refl sampleDb)|].
  split.
  { destruct (proj2 (gate_case_analysis sampleDb (requestOf "offline")) eq_refl)
      as (_ & H & _). exact (H _ eq_refl). }
  split.
  { destruct (proj2 (gate_case_analysis sampleDb (requestOf "nobody")) eq_refl)
      as (_ & _ & H & _). exact (H eq_refl). }
  split.
  { destruct (proj2 (gate_case_analysis sampleDb (requestOf "unverified")) eq_refl)
      as (_ & _ & _ & H & _). exact (H _ eq_refl eq_refl). }
  destruct (proj2 (gate_case_analysis sampleDb (requestOf "verified")) eq_refl)
    as (_ & _ & _ & _ & H). exact (H _ _ eq_refl eq_refl).
Defined.

(* ===================================================================== *)
(** * Further properties of the token store *)
(* ===================================================================== *)

(** X1.  Isolation.  A turn of the event loop changes the entries of one
    token only: the one the call draws or is handed, or the one the timer
    was registered for.  The entries of every other token, in the pending
    store and in the consumed cache, are what they were. *)
Theorem step_touches_one_token T now e s s1 :
  step now e s = Some s1 ->
  subject e s <> Some T ->
  tempTokenStore s1 !! T = tempTokenStore s !! T /\
  consumedTokens s1 !! T = consumedTokens s !! T.
Proof.
  intros Hstep Hsub. destruct e as [src payload|U stamp|k]; cbn [step subject] in *.
  - injection Hstep as <-.
    destruct (generate_cases src now payload s) as [[_ Hg]|[_ Hg]]; rewrite Hg;
      [by split|].
    assert (Hne : toHex (randomBytes 32 src) <> T) by congruence.
    revert Hne. generalize (toHex (randomBytes 32 src)). intros V Hne. simpl.
    split; [|reflexivity]. by rewrite lookup_insert_ne.
  - injection Hstep as <-. assert (Hne : U <> T) by congruence.
    unfold exchangeTempToken, tokenNotFound.
    repeat (case_match; simpl); split;
      rewrite ?lookup_delete_ne, ?lookup_insert_ne by assumption; reflexivity.
  - apply fire_inv in Hstep as (tm & Hk & ->). rewrite Hk in Hsub. simpl in Hsub.
    destruct (action tm) as [U|U]; simpl in *; split;
      rewrite ?lookup_delete_ne by congruence; reflexivity.
Qed.

Lemma step_touches_one_token_witness :
  tempTokenStore afterTraffic !! tokenZero = tempTokenStore afterIssue !! tokenZero /\
  consumedTokens afterTraffic !! tokenZero = consumedTokens afterIssue !! tokenZero.
Proof.
  set (mid := snd (generateTempToken sevens (issueTime + 1) VNull afterIssue)).
  destruct (step_touches_one_token tokenZero (issueTime + 1)
              (CallGenerate sevens VNull) afterIssue mid)
    as [H1 H2]; [reflexivity | vm_compute; discriminate |].
  destruct (step_touches_one_token tokenZero (issueTime + 2)
              (CallExchange tokenSeven (issueTime + 2)) mid afterTraffic)
    as [H3 H4]; [reflexivity | vm_compute; discriminate |].
  split; [by rewrite H3, H1 | by rewrite H4, H2].
Defined.

(** ** Entries and the timers that delete them *)

Lemma elem_of_delete_other {A} (l : list A) k x y :
  x ∈ l -> l !! k = Some y -> x <> y -> x ∈ delete k l.
Proof.
  revert k. induction l as [|a l IH]; intros k Hin Hk Hne; [by apply elem_of_nil in Hin|].
  destruct k as [|k]; simpl in *.
  - injection Hk as ->. apply elem_of_cons in Hin as [->|Hin]; [congruence | assumption].
  - apply elem_of_cons in Hin as [->|Hin]; [apply list_elem_of_here|].
    apply list_elem_of_further. by apply IH.
Qed.

Lemma covered_after_append (tms : list timer) tm cb :
  (exists x, x ∈ tms /\ action x = cb) -> exists x, x ∈ tms ++ [tm] /\ action x = cb.
Proof. intros (x & Hx & Hcb). exists x. split; [apply elem_of_app; by left | exact Hcb]. Qed.

Lemma covered_by_new (tms : list timer) tm :
  exists x, x ∈ tms ++ [tm] /\ action x = action tm.
Proof. exists tm. split; [apply elem_of_app; right; apply list_elem_of_here | reflexivity]. Qed.

Lemma covered_after_drop (tms : list timer) k tm cb :
  tms !! k = Some tm -> action tm <> cb ->
  (exists x, x ∈ tms /\ action x = cb) -> exists x, x ∈ delete k tms /\ action x = cb.
Proof.
  intros Hk Hne (x & Hx & Hcb). exists x. split; [|exact Hcb].
  eapply elem_of_delete_other; eauto. congruence.
Qed.

Lemma step_timersCover now e s s1 :
  step now e s = Some s1 -> timersCover s -> timersCover s1.
Proof.
  intros Hstep [Htemp Hcons]. destruct e as [src payload|U stamp|k]; cbn [step] in *.
  - injection Hstep as <-.
    destruct (generate_cases src now payload s) as [[_ Hg]|[_ Hg]]; rewrite Hg;
      [by split|].
    generalize (toHex (randomBytes 32 src)). intros V. split; simpl.
    + intros T. destruct (decide (V = T)) as [->|Hne].
      * intros _. apply (covered_by_new _ {| fireAt := _; action := DeleteTemp T |}).
      * rewrite lookup_insert_ne by assumption. intros Hin.
        apply covered_after_append. by apply Htemp.
    + intros T Hin. apply covered_after_append. by apply Hcons.
  - injection Hstep as <-.
    destruct (tempTokenStore s !! U) as [stored|] eqn:HU.
    + destruct (Z_le_gt_dec now (expiresAt stored)) as [Hle|Hgt];
        destruct (validTimeValue (expiresAt stored)) eqn:Hv.
      * rewrite (exchange_fresh now stamp U s _ HU Hv Hle). split; simpl.
        { intros T. destruct (decide (U = T)) as [->|Hne].
          - rewrite lookup_delete_eq. by intros [? ?].
          - rewrite lookup_delete_ne by assumption. intros Hin.
            apply covered_after_append. by apply Htemp. }
        intros T. destruct (decide (U = T)) as [->|Hne].
        { intros _. apply (covered_by_new _ {| fireAt := _; action := DeleteConsumed T |}). }
        rewrite lookup_insert_ne by assumption. intros Hin.
        apply covered_after_append. by apply Hcons.
      * unfold exchangeTempToken. rewrite HU, Hv. by split.
      * rewrite (exchange_expired now stamp U s _ HU Hv); [|lia]. split; simpl; [|exact Hcons].
        intros T. destruct (decide (U = T)) as [->|Hne].
        { rewrite lookup_delete_eq. by intros [? ?]. }
        rewrite lookup_delete_ne by assumption. apply Htemp.
      * unfold exchangeTempToken. rewrite HU, Hv. by split.
    + unfold exchangeTempToken. rewrite HU.
      destruct (consumedTokens s !! U) as [consumed|] eqn:HC;
        [|rewrite tokenNotFound_store; by split].
      destruct (_ <? _); [by split|]. rewrite tokenNotFound_store.
      split; simpl; [exact Htemp|].
      intros T. destruct (decide (U = T)) as [->|Hne].
      { rewrite lookup_delete_eq. by intros [? ?]. }
      rewrite lookup_delete_ne by assumption. apply Hcons.
  - apply fire_inv in Hstep as (tm & Hk & ->).
    destruct (action tm) as [U|U] eqn:Hact; split; simpl; intros T.
    + destruct (decide (U = T)) as [->|Hne].
      { rewrite lookup_delete_eq. by intros [? ?]. }
      rewrite lookup_delete_ne by assumption. intros Hin.
      eapply covered_after_drop; [exact Hk | congruence | by apply Htemp].
    + intros Hin. eapply covered_after_drop; [exact Hk | congruence | by apply Hcons].
    + intros Hin. eapply covered_after_drop; [exact Hk | congruence | by apply Htemp].
    + destruct (decide (U = T)) as [->|Hne].
      { rewrite lookup_delete_eq. by intros [? ?]. }
      rewrite lookup_delete_ne by assumption. intros Hin.
      eapply covered_after_drop; [exact Hk | congruence | by apply Hcons].
Qed.

Lemma run_timersCover allowed t s t' s' :
  run allowed t s t' s' -> timersCover s -> timersCover s'.
Proof. induction 1; eauto using step_timersCover. Qed.

Lemma runCallbacks_keeps_absent cbs s :
  (forall T, tempTokenStore s !! T = None ->
             tempTokenStore (runCallbacks cbs s) !! T = None) /\
  (forall T, consumedTokens s !! T = None ->
             consumedTokens (runCallbacks cbs s) !! T = None).
Proof.
  revert s. induction cbs as [|cb cbs IH]; intros s; [by split|].
  unfold runCallbacks in *. simpl. destruct (IH (runCallback cb s)) as [IHt IHc].
  split; intros T HT; [apply IHt | apply IHc]; destruct cb as [U|U]; simpl;
    try assumption;
    (destruct (decide (U = T)) as [->|Hne];
     [apply lookup_delete_eq | by rewrite lookup_delete_ne]).
Qed.

Lemma runCallbacks_deletes cbs s T :
  (DeleteTemp T ∈ cbs -> tempTokenStore (runCallbacks cbs s) !! T = None) /\
  (DeleteConsumed T ∈ cbs -> consumedTokens (runCallbacks cbs s) !! T = None).
Proof.
  revert s. induction cbs as [|cb cbs IH]; intros s.
  { split; intros H; by apply elem_of_nil in H. }
  destruct (IH (runCallback cb s)) as [IHt IHc].
  destruct (runCallbacks_keeps_absent cbs (runCallback cb s)) as [Kt Kc].
  unfold runCallbacks in *. simpl.
  split; intros [<-|Hin]%elem_of_cons; auto.
  - apply Kt. simpl. apply lookup_delete_eq.
  - apply Kc. simpl. apply lookup_delete_eq.
Qed.

Lemma drain_empties s :
  timersCover s -> tempTokenStore (drain s) = ∅ /\ consumedTokens (drain s) = ∅.
Proof.
  intros [Htemp Hcons]. unfold drain.
  set (s0 := {| tempTokenStore := tempTokenStore s;
                consumedTokens := consumedTokens s; timers := [] |}).
  split; apply map_eq; intros T; rewrite lookup_empty.
  - destruct (tempTokenStore s !! T) as [x|] eqn:Hx.
    + destruct (Htemp T (ltac:(by eexists))) as (tm & Htm & Hact).
      apply runCallbacks_deletes. rewrite <- Hact. by apply list_elem_of_fmap_2.
    + by apply runCallbacks_keeps_absent.
  - destruct (consumedTokens s !! T) as [x|] eqn:Hx.
    + destruct (Hcons T (ltac:(by eexists))) as (tm & Htm & Hact).
      apply runCallbacks_deletes. rewrite <- Hact. by apply list_elem_of_fmap_2.
    + by apply runCallbacks_keeps_absent.
Qed.

(** Letting the pending timers run, one after the other, is a run of the
    event loop. *)
Lemma drain_is_a_run t tms :
  forall s, timers s = tms -> run anything t s t (drain s).
Proof.
  induction tms as [|tm rest IH]; intros s Hs.
  - replace (drain s) with s; [constructor|].
    unfold drain. rewrite Hs. destruct s; simpl in *. by subst.
  - eapply (run_step _ _ _ t (TimerFires 0)
              (runCallback (action tm) (dropTimer 0 s))); [lia | exact I | |].
    + simpl. unfold fire. by rewrite Hs.
    + replace (drain s) with (drain (runCallback (action tm) (dropTimer 0 s))).
      * apply IH. destruct (action tm); simpl; by rewrite Hs.
      * unfold drain.
        replace (timers (runCallback (action tm) (dropTimer 0 s))) with rest
          by (destruct (action tm); simpl; by rewrite Hs).
        rewrite Hs. simpl. unfold runCallbacks. simpl.
        f_equal. by destruct (action tm).
Qed.

(** X2.  No entry without a timer that deletes it.  In every store the
    server can reach from start-up, each entry of [tempTokenStore] and each
    entry of [consumedTokens] still has a timer pending whose callback
    deletes it.  Hence, once the timers pending in that store have run,
    which is a possible continuation of the event loop, both maps are
    empty. *)
Theorem every_entry_has_its_purge_pending t0 t s :
  run anything t0 initial t s ->
  timersCover s /\
  run anything t s t (drain s) /\
  tempTokenStore (drain s) = ∅ /\
  consumedTokens (drain s) = ∅.
Proof.
  intros Hrun.
  assert (Hcover : timersCover s).
  { eapply run_timersCover; [exact Hrun|].
    split; intros T [x Hx]; simpl in Hx; by rewrite lookup_empty in Hx. }
  split; [exact Hcover|]. split; [by apply (drain_is_a_run t (timers s))|].
  by apply drain_empties.
Qed.

Lemma every_entry_has_its_purge_pending_witness :
  timersCover afterTraffic /\
  run anything (issueTime + 2) afterTraffic (issueTime + 2) (drain afterTraffic) /\
  tempTokenStore (drain afterTraffic) = ∅ /\
  consumedTokens (drain afterTraffic) = ∅.
Proof.
  apply (every_entry_has_its_purge_pending issueTime (issueTime + 2)).
  eapply (run_step _ _ _ issueTime (CallGenerate zeros session));
    [lia | exact I | reflexivity |].
  eapply run_weaken; [|exact scenario_other_traffic]. intros; exact I.
Defined.

(** ** The whole life of a token *)

Lemma step_alive T P E now e s s1 :
  validTimeValue E = true ->
  ~ issues T now e s ->
  step now e s = Some s1 -> alive T P E s -> alive T P E s1.
Proof.
  intros Hv Hni Hstep [Hp|(c & Hred)].
  - assert (Hcases :
      (exists stamp, e = CallExchange T stamp /\
       tempTokenStore s !! T = Some {| data := P; expiresAt := E |} /\ now <= E)
      \/ ~ redeems T now e s).
    { destruct e as [src payload|U stamp|k];
        [right; intros [[? ?] _]; discriminate | | right; intros [[? ?] _]; discriminate].
      destruct (decide (U = T)) as [->|Hne]; [|right; intros [[? ?] _]; congruence].
      destruct Hp as [[Hin|Hout] _].
      - destruct (Z_le_gt_dec now E) as [Hfresh|Hlate]; [left; by eauto|].
        right. intros [_ (stored & Hst & Hnow)]. rewrite Hin in Hst.
        injection Hst as <-. simpl in Hnow. lia.
      - right. intros [_ (stored & Hst & _)]. congruence. }
    destruct Hcases as [(stamp & -> & Hin & Hfresh)|Hnr].
    + right. exists stamp. simpl in Hstep. injection Hstep as <-.
      eapply fresh_exchange_redeemed; eauto.
    + left. eapply step_pending; eauto.
  - right. exists c. eapply step_redeemed; eauto.
Qed.

Lemma run_alive T P E t s t' s' :
  validTimeValue E = true ->
  run (notIssuing T) t s t' s' -> alive T P E s -> alive T P E s'.
Proof. intros Hv. induction 1; eauto using step_alive. Qed.

Lemma issued_alive T P t s1 t' s :
  issuedAt T P t s1 -> run (notIssuing T) t s1 t' s ->
  alive T P (t + TOKEN_EXPIRY) s /\
  validTimeValue (t + TOKEN_EXPIRY) = true /\ printable s.
Proof.
  intros Hiss Hrun. destruct (issuedAt_facts _ _ _ _ Hiss) as (Hpend & _ & Hv & Hp).
  split; [eapply run_alive; eauto; by left|].
  split; [exact Hv | eapply run_printable; eauto].
Qed.

(** X3.  Integrity.  Whatever happens between issuance and the call
    (exchanges of this and of other tokens, other issuances, timers), as long
    as the generator does not return the same string again,
    [exchangeTempToken(T)] yields the payload [T] was issued for, or [null]:
    never the payload of another token, and never an exception. *)
Theorem token_yields_only_its_payload T P t s1 t' s now stamp :
  issuedAt T P t s1 ->
  run (notIssuing T) t s1 t' s ->
  fst (exchangeTempToken now stamp T s) = Normal P \/
  fst (exchangeTempToken now stamp T s) = Normal VNull.
Proof.
  intros Hiss Hrun.
  destruct (issued_alive _ _ _ _ _ _ Hiss Hrun) as (Halive & Hv & Hp).
  destruct Halive as [[[Hin|Hout] Hcons]|(c & Hout & [Hin|Hnone])].
  - destruct (Z_le_gt_dec now (t + TOKEN_EXPIRY)) as [Hle|Hgt].
    + left. by rewrite (exchange_fresh now stamp T s _ Hin Hv Hle).
    + right. rewrite (exchange_expired now stamp T s _ Hin Hv); [reflexivity | simpl; lia].
  - right. rewrite exchange_gone; [reflexivity | by split | exact Hp].
  - destruct (Z_lt_ge_dec (now - c) CONSUMED_TOKEN_RETENTION) as [Hlt|Hge].
    + left. by rewrite (exchange_cached now stamp T s _ Hout Hin).
    + right. rewrite (exchange_stale now stamp T s _ Hout Hin);
        [reflexivity | simpl; lia | exact Hp].
  - right. rewrite exchange_gone; [reflexivity | by split | exact Hp].
Qed.

Lemma token_yields_only_its_payload_witness :
  fst (exchangeTempToken (issueTime + 5) (issueTime + 6) tokenZero afterTraffic)
    = Normal session \/
  fst (exchangeTempToken (issueTime + 5) (issueTime + 6) tokenZero afterTraffic)
    = Normal VNull.
Proof.
  apply (token_yields_only_its_payload tokenZero session issueTime afterIssue
           (issueTime + 2) afterTraffic).
  - exact scenario_issued.
  - eapply run_weaken; [|exact scenario_other_traffic]. intros ? ? ? [H _]. exact H.
Defined.

(** ** [getTempTokenStoreSize] *)

(** X5.  What [getTempTokenStoreSize] counts.  A call of
    [generateTempToken] that returns [T] raises the size by one, unless [T]
    was already pending, in which case the entry is replaced and the size
    stays.  A call of [exchangeTempToken(T)] in a store the server can
    reach lowers the size by one when [T] is pending, whether the call
    redeems it or finds it expired, and leaves the size alone otherwise;
    it never raises it. *)
Theorem store_size_accounting t0 t s :
  run anything t0 initial t s ->
  (forall src now P T s',
      generateTempToken src now P s = (Normal T, s') ->
      getTempTokenStoreSize s' =
        getTempTokenStoreSize s
        + (if tempTokenStore s !! T is Some _ then 0 else 1)) /\
  (forall now stamp T,
      getTempTokenStoreSize (snd (exchangeTempToken now stamp T s)) =
        getTempTokenStoreSize s
        - (if tempTokenStore s !! T is Some _ then 1 else 0)).
Proof.
  intros Hrun. pose proof (run_printable _ _ _ _ _ Hrun initial_printable) as Hp.
  unfold getTempTokenStoreSize. split.
  - intros src now P T s' Hgen.
    destruct (generate_cases src now P s) as [[_ Hg]|[_ Hg]]; rewrite Hg in Hgen;
      [discriminate|].
    clear Hg. revert Hgen. generalize (toHex (randomBytes 32 src)). intros V Hgen.
    injection Hgen as <- <-. simpl.
    destruct (tempTokenStore s !! V) as [old|] eqn:Hold.
    + rewrite <- (insert_delete_id (tempTokenStore s) V old Hold) at 2.
      rewrite <- insert_delete_eq.
      rewrite !map_size_insert_None by apply lookup_delete_eq. lia.
    + rewrite map_size_insert_None by assumption. lia.
  - intros now stamp T. destruct (tempTokenStore s !! T) as [stored|] eqn:Hin.
    + assert (Hv : validTimeValue (expiresAt stored) = true) by exact (Hp _ _ Hin).
      assert (Hsize : Z.of_nat (size (delete T (tempTokenStore s)))
                      = Z.of_nat (size (tempTokenStore s)) - 1).
      { rewrite <- (insert_delete_id (tempTokenStore s) T stored Hin) at 2.
        rewrite map_size_insert_None by apply lookup_delete_eq. lia. }
      destruct (Z_le_gt_dec now (expiresAt stored)) as [Hle|Hgt].
      * by rewrite (exchange_fresh now stamp T s _ Hin Hv Hle).
      * rewrite (exchange_expired now stamp T s _ Hin Hv); [exact Hsize | lia].
    + unfold exchangeTempToken, tokenNotFound. rewrite Hin.
      repeat (case_match; simpl); lia.
Qed.

Lemma store_size_accounting_witness :
  getTempTokenStoreSize afterIssue = 1 /\
  getTempTokenStoreSize afterRedeem = 0.
Proof.
  destruct (store_size_accounting issueTime issueTime initial (run_done _ _ _))
    as [Hgen _].
  destruct (store_size_accounting issueTime issueTime afterIssue) as [_ Hex].
  { eapply (run_step _ _ _ issueTime (CallGenerate zeros session));
      [lia | exact I | reflexivity | constructor]. }
  split.
  - exact (Hgen zeros issueTime session tokenZero afterIssue eq_refl).
  - exact (Hex (issueTime + 5) (issueTime + 6) tokenZero).
Defined.

(* ===================================================================== *)
(** * Further properties of the exchange route *)
(* ===================================================================== *)

Lemma exchange_returns now stamp token s :
  printable s ->
  exists v s', exchangeTempToken now stamp token s = (Normal v, s') /\
    (v = VNull \/
     (exists stored, tempTokenStore s !! token = Some stored /\ v = data stored) \/
     (exists consumed, consumedTokens s !! token = Some consumed /\
                       v = consumedData consumed)).
Proof.
  intros Hp.
  destruct (tempTokenStore s !! token) as [stored|] eqn:Hin.
  - assert (Hv : validTimeValue (expiresAt stored) = true) by exact (Hp _ _ Hin).
    destruct (Z_le_gt_dec now (expiresAt stored)) as [Hle|Hgt].
    + eexists _, _. split; [by apply (exchange_fresh now stamp token s _ Hin)|]. eauto.
    + eexists _, _. split; [apply (exchange_expired now stamp token s _ Hin); auto; lia|].
      eauto.
  - destruct (consumedTokens s !! token) as [consumed|] eqn:Hc.
    + destruct (Z_lt_ge_dec (now - consumedAt consumed) CONSUMED_TOKEN_RETENTION)
        as [Hlt|Hge].
      * eexists _, _. split; [by apply (exchange_cached now stamp token s _ Hin Hc)|]. eauto.
      * eexists _, _.
        split; [apply (exchange_stale now stamp token s _ Hin Hc); [lia|exact Hp]|].
        eauto.
    + eexists _, _. split; [apply exchange_gone; [by split | exact Hp]|]. eauto.
Qed.

Lemma handler_on_truthy now stamp c rest s v s' :
  exchangeTempToken now stamp (decodedCode (String c rest)) s = (Normal v, s') ->
  truthy v = true ->
  exchangeHandler now stamp (QString (String c rest)) s
    = (Normal (respond 200 (successBody v)), s').
Proof. intros Hcall Hv. unfold exchangeHandler. by rewrite Hcall, Hv. Qed.

Lemma handler_on_truthy_plain now stamp c rest s v s' :
  decodedCode (String c rest) = String c rest ->
  exchangeTempToken now stamp (String c rest) s = (Normal v, s') ->
  truthy v = true ->
  exchangeHandler now stamp (QString (String c rest)) s
    = (Normal (respond 200 (successBody v)), s').
Proof. intros Hdec Hcall. apply handler_on_truthy. by rewrite Hdec. Qed.

Lemma decodedCode_of_decode code T :
  decodeURIComponent code = Some T -> decodedCode code = T.
Proof.
  intros Hdec. unfold decodedCode. rewrite Hdec.
  destruct (String.eqb T code) eqn:Heq; simpl; [|reflexivity].
  by apply String.eqb_eq in Heq.
Qed.

(** X6.  The route always answers, with 200 or 400.  In every store the
    server can reach, whatever the [code] parameter (absent, a string, an
    array or object), the handler returns normally; the status is 200 or
    400 and the [code] field of the JSON body repeats it.  A 200 carries a
    truthy payload, one that is stored under the decoded code in the
    pending map or the consumed cache.  A [code] that is not a non-empty
    string is answered 400 without the store being touched. *)
Theorem handler_always_responds t0 t s now stamp q :
  run anything t0 initial t s ->
  exists r s',
    exchangeHandler now stamp q s = (Normal r, s') /\
    (httpStatus r = 200 \/ httpStatus r = 400) /\
    getField (body r) "code" = VNum (httpStatus r) /\
    (httpStatus r = 200 ->
     exists code payload,
       q = QString code /\ truthy payload = true /\ body r = successBody payload /\
       ((exists stored, tempTokenStore s !! decodedCode code = Some stored /\
                        payload = data stored) \/
        (exists consumed, consumedTokens s !! decodedCode code = Some consumed /\
                          payload = consumedData consumed))) /\
    ((forall c rest, q <> QString (String c rest)) -> s' = s /\ httpStatus r = 400).
Proof.
  intros Hrun. pose proof (run_printable _ _ _ _ _ Hrun initial_printable) as Hp.
  assert (Hbad : exists r s',
             (Normal (respond 400 (errorBody 400 "Missing or invalid code")), s)
               = (Normal r, s') /\
             (httpStatus r = 200 \/ httpStatus r = 400) /\
             getField (body r) "code" = VNum (httpStatus r) /\
             (httpStatus r = 200 ->
              exists code payload,
                q = QString code /\ truthy payload = true /\
                body r = successBody payload /\
                ((exists stored, tempTokenStore s !! decodedCode code = Some stored /\
                                 payload = data stored) \/
                 (exists consumed, consumedTokens s !! decodedCode code = Some consumed /\
                                   payload = consumedData consumed))) /\
             ((forall c rest, q <> QString (String c rest)) -> s' = s /\ httpStatus r = 400)).
  { eexists _, _. split; [reflexivity|]. simpl. split; [by right|].
    split; [reflexivity|]. split; [discriminate | by split]. }
  destruct q as [|[|c rest]|]; try exact Hbad. clear Hbad.
  destruct (exchange_returns now stamp (decodedCode (String c rest)) s Hp)
    as (v & s' & Hcall & Hv).
  destruct (truthy v) eqn:Htruthy.
  - eexists _, _. split; [by apply handler_on_truthy|]. simpl.
    split; [by left|]. split; [reflexivity|]. split.
    + intros _. exists (String c rest), v. repeat split; try assumption.
      destruct Hv as [->|[Hs|Hc]]; [discriminate | by left | by right].
    + intros Hq. exfalso. by apply (Hq c rest).
  - destruct (handler_on_falsy _ _ _ _ _ _ _ Hcall Htruthy) as (msg & Hresp & _).
    eexists _, _. split; [exact Hresp|]. simpl.
    split; [by right|]. split; [reflexivity|]. split; [discriminate|].
    intros Hq. exfalso. by apply (Hq c rest).
Qed.

Lemma handler_always_responds_witness :
  exists r s',
    exchangeHandler (issueTime + 5) (issueTime + 6) QStructured afterIssue
      = (Normal r, s') /\
    (httpStatus r = 200 \/ httpStatus r = 400) /\
    getField (body r) "code" = VNum (httpStatus r) /\
    (httpStatus r = 200 ->
     exists code payload,
       QStructured = QString code /\ truthy payload = true /\
       body r = successBody payload /\
       ((exists stored, tempTokenStore afterIssue !! decodedCode code = Some stored /\
                        payload = data stored) \/
        (exists consumed, consumedTokens afterIssue !! decodedCode code = Some consumed /\
                          payload = consumedData consumed))) /\
    ((forall c rest, QStructured <> QString (String c rest)) ->
     s' = afterIssue /\ httpStatus r = 400).
Proof.
  apply (handler_always_responds issueTime issueTime afterIssue).
  eapply (run_step _ _ _ issueTime (CallGenerate zeros session));
    [lia | exact I | reflexivity | constructor].
Defined.

(** X7.  The route redeems whatever decodes to the token.  The handler
    passes the code through [decodeURIComponent] once more, so every
    non-empty string that decodes to a token [T] issued for a truthy
    payload, [T] itself and each of its percent-encoded spellings, presented
    while [T] is still in the pending store and not past its expiry, is
    answered 200 with the payload [T] was issued for, and consumes [T]:
    exact matching is a property of the store, not of the route. *)
Theorem handler_redeems_decoded_code T P t s1 t' s now stamp c rest :
  truthy P = true ->
  issuedAt T P t s1 ->
  run (notAbout T) t s1 t' s ->
  now <= t + TOKEN_EXPIRY ->
  is_Some (tempTokenStore s !! T) ->
  decodeURIComponent (String c rest) = Some T ->
  exists s',
    exchangeHandler now stamp (QString (String c rest)) s
      = (Normal (respond 200 (successBody P)), s') /\
    tempTokenStore s' !! T = None /\
    consumedTokens s' !! T = Some {| consumedData := P; consumedAt := stamp |}.
Proof.
  intros Htruthy Hiss Hrun Hfresh Hstill Hdec.
  destruct (fresh_exchange T P t s1 t' s now stamp Hiss Hrun Hfresh Hstill)
    as (s' & Hcall & Htemp & Hcons & _).
  exists s'. split; [|by split].
  apply handler_on_truthy; [|exact Htruthy].
  by rewrite (decodedCode_of_decode _ _ Hdec).
Qed.

Lemma handler_redeems_decoded_code_witness :
  exists s',
    exchangeHandler (issueTime + 5) (issueTime + 6) (QString escapedZero) afterIssue
      = (Normal (respond 200 (successBody session)), s') /\
    tempTokenStore s' !! tokenZero = None /\
    consumedTokens s' !! tokenZero
      = Some {| consumedData := session; consumedAt := issueTime + 6 |}.
Proof.
  apply (handler_redeems_decoded_code tokenZero session issueTime afterIssue
           issueTime afterIssue (issueTime + 5)).
  - reflexivity.
  - exact scenario_issued.
  - constructor.
  - unfold TOKEN_EXPIRY. lia.
  - by eexists.
  - reflexivity.
Defined.

Lemma handler_on_issued_token src now stamp s :
  decodedCode (toHex (randomBytes 32 src)) = toHex (randomBytes 32 src) /\
  snd (exchangeHandler now stamp (QString (toHex (randomBytes 32 src))) s)
    = snd (exchangeTempToken now stamp (toHex (randomBytes 32 src)) s).
Proof.
  pose proof (decodedCode_without_percent _ (issued_token_plain src)) as Hdec.
  split; [exact Hdec|].
  destruct (issued_token_nonempty src) as (c & rest & HT).
  revert Hdec. rewrite HT. intros Hdec. unfold exchangeHandler. rewrite Hdec.
  destruct (exchangeTempToken now stamp (String c rest) s) as [[v|e] s']; [|reflexivity].
  destruct (truthy v); simpl; [reflexivity|].
  by destruct (getTempTokenStoreSize s' =? 0).
Qed.

(** X8.  The duplicate request.  When the exchange request for a token
    issued with a truthy payload [P] redeems it, it is answered 200 with
    [P] and the cache entry is stamped [consumedAt = r].  The same request
    repeated right after it, or later while the cache entry is still there
    (the eviction timer has not removed it), at a clock less than
    [CONSUMED_TOKEN_RETENTION] past [r], gets the identical response and
    leaves the store as it is, whatever the server did in between. *)
Theorem handler_duplicate_request T P t s1 t1 s now0 r :
  truthy P = true ->
  issuedAt T P t s1 ->
  run (notRedeeming T) t s1 t1 s ->
  t1 <= now0 ->
  redeems T now0 (CallExchange T r) s ->
  fst (exchangeHandler now0 r (QString T) s) = Normal (respond 200 (successBody P)) /\
  (forall now stamp,
      now < r + CONSUMED_TOKEN_RETENTION ->
      exchangeHandler now stamp (QString T) (snd (exchangeHandler now0 r (QString T) s))
        = (Normal (respond 200 (successBody P)),
           snd (exchangeHandler now0 r (QString T) s))) /\
  (forall t' s' now stamp,
      run (notIssuing T) r (snd (exchangeHandler now0 r (QString T) s)) t' s' ->
      is_Some (consumedTokens s' !! T) ->
      now < r + CONSUMED_TOKEN_RETENTION ->
      exchangeHandler now stamp (QString T) s'
        = (Normal (respond 200 (successBody P)), s')).
Proof.
  intros Htruthy Hiss Hrun1 Hle1 Hred.
  assert (HT : exists src, T = toHex (randomBytes 32 src)).
  { destruct Hiss as (_ & _ & s0 & src & _ & _ & Hgen). exists src.
    by apply generate_token in Hgen. }
  destruct HT as [src ->].
  destruct (handler_on_issued_token src now0 r s) as [Hdec Hstore].
  destruct (issued_token_nonempty src) as (c & rest & HT).
  set (T := toHex (randomBytes 32 src)) in *.
  rewrite Hstore.
  assert (Hat : redeemedAt T P r (snd (exchangeTempToken now0 r T s))).
  { exists t, s1, t1, s, now0. repeat split; try assumption; apply Hred. }
  destruct (redeemedAt_facts _ _ _ _ Hat) as [Hredeemed _].
  destruct (issuedAt_facts _ _ _ _ Hiss) as (Hpend & _ & Hv & _).
  pose proof (run_pending _ _ _ _ _ _ _ Hrun1 Hpend) as [Htemp _].
  destruct Hred as [_ (stored & Hst & Hfresh)].
  destruct Htemp as [Hin'|Hnone]; [|congruence].
  rewrite Hin' in Hst. injection Hst as <-. simpl in Hfresh.
  pose proof (exchange_fresh now0 r T s _ Hin' Hv Hfresh) as Hfirst. simpl in Hfirst.
  assert (Hlater : forall t' s' now stamp,
      run (notIssuing T) r (snd (exchangeTempToken now0 r T s)) t' s' ->
      is_Some (consumedTokens s' !! T) ->
      now < r + CONSUMED_TOKEN_RETENTION ->
      exchangeTempToken now stamp T s' = (Normal P, s')).
  { intros t' s' now stamp Hrun2 [x Hx] Hlt.
    pose proof (run_redeemed _ _ _ _ _ _ _ Hrun2 Hredeemed) as [Hout Hcons].
    destruct Hcons as [Hin|Hnone]; [|congruence].
    apply (exchange_cached now stamp T s' _ Hout Hin). simpl. lia. }
  assert (Hnow : forall now stamp,
      now < r + CONSUMED_TOKEN_RETENTION ->
      exchangeTempToken now stamp T (snd (exchangeTempToken now0 r T s))
        = (Normal P, snd (exchangeTempToken now0 r T s))).
  { intros now stamp Hlt. apply (Hlater r _ now stamp); [constructor| |exact Hlt].
    rewrite Hfirst. simpl. rewrite lookup_insert_eq. by eexists. }
  clearbody T. subst T.
  split; [|split].
  - by rewrite (handler_on_truthy_plain _ _ _ _ _ _ _ Hdec Hfirst Htruthy).
  - intros now stamp Hlt. apply handler_on_truthy_plain; auto.
  - intros t' s' now stamp Hrun2 Hstill Hlt.
    apply handler_on_truthy_plain; eauto.
Qed.

Lemma handler_duplicate_request_witness :
  fst (exchangeHandler (issueTime + 5) (issueTime + 6) (QString tokenZero) afterIssue)
    = Normal (respond 200 (successBody session)) /\
  (forall now stamp,
      now < issueTime + 6 + CONSUMED_TOKEN_RETENTION ->
      exchangeHandler now stamp (QString tokenZero) afterRedeem
        = (Normal (respond 200 (successBody session)), afterRedeem)) /\
  (forall t' s' now stamp,
      run (notIssuing tokenZero) (issueTime + 6) afterRedeem t' s' ->
      is_Some (consumedTokens s' !! tokenZero) ->
      now < issueTime + 6 + CONSUMED_TOKEN_RETENTION ->
      exchangeHandler now stamp (QString tokenZero) s'
        = (Normal (respond 200 (successBody session)), s')).
Proof.
  apply (handler_duplicate_request tokenZero session issueTime afterIssue
           issueTime afterIssue (issueTime + 5) (issueTime + 6)).
  - reflexivity.
  - exact scenario_issued.
  - constructor.
  - lia.
  - exact scenario_redeems.
Defined.

(* ===================================================================== *)
(** * The OAuth callback *)
(* ===================================================================== *)

Lemma issued_token_is_plain_for_urls src :
  encodeURIComponent (toHex (randomBytes 32 src)) = toHex (randomBytes 32 src).
Proof.
  apply encode_unreserved. eapply allChars_impl; [|apply toHex_lowerHex].
  intros c Hc. by apply lowerHex_plain.
Qed.

Lemma strictEqStr_true v s : strictEqStr v s = true <-> v = VStr s.
Proof.
  destruct v; simpl; try (split; [discriminate | intros [=]]).
  rewrite String.eqb_eq. split; [by intros -> | by intros [= ->]].
Qed.

Lemma success_not_nullish result :
  strictEqStr (getField result "status") "success" = true -> nullish result = false.
Proof. by destruct result. Qed.

(** What [OAuthCallback] does to the store. *)
Lemma OAuthCallback_cases pf env src now result s :
  (strictEqStr (getField result "status") "success" = true /\
   truthy (getField result "data") = true /\
   validTimeValue (now + TOKEN_EXPIRY) = true /\
   OAuthCallback pf env src now result s =
     (Normal (Redirect (frontendURLOf env ++ "/oauth-callback?code="
                          ++ toHex (randomBytes 32 src))),
      snd (generateTempToken src now (getField result "data") s)) /\
   fst (generateTempToken src now (getField result "data") s)
     = Normal (toHex (randomBytes 32 src))) \/
  snd (OAuthCallback pf env src now result s) = s.
Proof.
  unfold OAuthCallback.
  destruct (strictEqStr (getField result "status") "success") eqn:Hstatus.
  - rewrite (success_not_nullish _ Hstatus), Hstatus.
    destruct (truthy (getField result "data")) eqn:Hdata; simpl.
    + destruct (generate_cases src now (getField result "data") s) as [[Hv Hg]|[Hv Hg]];
        rewrite Hg; [by right|]. left.
      pose proof (issued_token_is_plain_for_urls src) as Henc.
      repeat split; try assumption. cbn [fst snd]. by rewrite Henc.
    + right. by repeat case_match.
  - right. simpl.
    destruct (nullish result); simpl; [by repeat case_match|].
    rewrite Hstatus. simpl. by repeat case_match.
Qed.

Lemma googleCallback_success pf env src now err user info s :
  truthy err = false ->
  strictEqStr (getField user "status") "success" = true ->
  googleCallback pf env src now err user info s = OAuthCallback pf env src now user s.
Proof.
  intros Herr Hstatus. unfold googleCallback. rewrite Herr.
  assert (Huser : truthy user = true) by by destruct user.
  by rewrite Huser.
Qed.

(** X9.  The hand-off, end to end.  When passport reports no error and a
    result whose [status] is ["success"] and whose [data] is truthy, the
    Google callback route redirects the browser to
    [<frontend>/oauth-callback?code=T], the token [T] appearing verbatim,
    and stores [data] under [T]; and the exchange route, given that [code]
    while [T] is still in the pending store and not past its expiry,
    answers 200 with exactly that [data].  [OAuthCallback] called directly
    with the result as [req.user] does the same. *)
Theorem oauth_hand_off pf env src t err user info t0 tb s0 :
  run (notIssuing (toHex (randomBytes 32 src))) t0 initial tb s0 ->
  tb <= t ->
  validTimeValue (t + TOKEN_EXPIRY) = true ->
  truthy err = false ->
  getField user "status" = VStr "success" ->
  truthy (getField user "data") = true ->
  exists s1,
    googleCallback pf env src t err user info s0 =
      (Normal (Redirect (frontendURLOf env ++ "/oauth-callback?code="
                           ++ toHex (randomBytes 32 src))), s1) /\
    OAuthCallback pf env src t user s0 = googleCallback pf env src t err user info s0 /\
    tempTokenStore s1 !! toHex (randomBytes 32 src)
      = Some {| data := getField user "data"; expiresAt := t + TOKEN_EXPIRY |} /\
    forall t' s now stamp,
      run (notAbout (toHex (randomBytes 32 src))) t s1 t' s ->
      now <= t + TOKEN_EXPIRY ->
      is_Some (tempTokenStore s !! toHex (randomBytes 32 src)) ->
      exists s',
        exchangeHandler now stamp (QString (toHex (randomBytes 32 src))) s
          = (Normal (respond 200 (successBody (getField user "data"))), s').
Proof.
  intros Hrun Hle Hv Herr Hstatus Hdata.
  apply strictEqStr_true in Hstatus.
  rewrite (googleCallback_success _ _ _ _ _ _ _ _ Herr Hstatus).
  destruct (OAuthCallback_cases pf env src t user s0)
    as [(_ & _ & _ & Hcall & Htok)|Hsame].
  - set (T := toHex (randomBytes 32 src)) in *.
    assert (Hgen : generateTempToken src t (getField user "data") s0
                   = (Normal T, snd (generateTempToken src t (getField user "data") s0))).
    { destruct (generateTempToken src t (getField user "data") s0) as [r s1].
      simpl in *. by rewrite Htok. }
    assert (Hiss : issuedAt T (getField user "data") t
                     (snd (generateTempToken src t (getField user "data") s0))).
    { exists t0, tb, s0, src. by repeat split. }
    eexists. split; [exact Hcall|]. split; [reflexivity|].
    split; [apply (issuedAt_facts _ _ _ _ Hiss)|].
    intros t' s now stamp Hrun' Hfresh Hstill.
    destruct (fresh_exchange T _ t _ t' s now stamp Hiss Hrun' Hfresh Hstill)
      as (s' & Hex & _).
    exists s'. destruct (issued_token_nonempty src) as (c & rest & HT).
    pose proof (decodedCode_without_percent _ (issued_token_plain src)) as Hdec.
    fold T in HT, Hdec. clearbody T. subst T.
    apply handler_on_truthy; [by rewrite Hdec | exact Hdata].
  - exfalso. unfold OAuthCallback in Hsame.
    rewrite (success_not_nullish _ Hstatus), Hstatus, Hdata in Hsame. simpl in Hsame.
    destruct (generate_cases src t (getField user "data") s0) as [[Hv' _]|[_ Hg]];
      [congruence|].
    rewrite Hg in Hsame. cbn [snd] in Hsame.
    apply (f_equal (fun x => length (timers x))) in Hsame. simpl in Hsame.
    rewrite length_app in Hsame. simpl in Hsame. lia.
Qed.

Lemma oauth_hand_off_witness :
  exists s1,
    googleCallback samplePlatform None zeros issueTime VNull sampleResult VUndefined initial =
      (Normal (Redirect ("http://localhost:3000" ++ "/oauth-callback?code=" ++ tokenZero)), s1) /\
    OAuthCallback samplePlatform None zeros issueTime sampleResult initial
      = googleCallback samplePlatform None zeros issueTime VNull sampleResult VUndefined initial /\
    tempTokenStore s1 !! tokenZero
      = Some {| data := session; expiresAt := issueTime + TOKEN_EXPIRY |} /\
    forall t' s now stamp,
      run (notAbout tokenZero) issueTime s1 t' s ->
      now <= issueTime + TOKEN_EXPIRY ->
      is_Some (tempTokenStore s !! tokenZero) ->
      exists s',
        exchangeHandler now stamp (QString tokenZero) s
          = (Normal (respond 200 (successBody session)), s').
Proof.
  apply (oauth_hand_off samplePlatform None zeros issueTime VNull sampleResult
           VUndefined issueTime issueTime initial).
  - constructor.
  - lia.
  - reflexivity.
  - reflexivity.
  - reflexivity.
  - reflexivity.
Defined.

(** X10.  When the callback route issues a token.  Whatever passport
    reports, the Google callback route either leaves the store exactly as
    it is, or it has made the one call [generateTempToken(user.data)]; and
    the latter only when [err] is falsy, [user.status] is ["success"] and
    [user.data] is truthy.  So the route never stores a falsy payload, and
    never issues a token for a failed login. *)
Theorem callback_issues_only_on_success pf env src now err user info s :
  snd (googleCallback pf env src now err user info s) = s \/
  (truthy err = false /\
   getField user "status" = VStr "success" /\
   truthy (getField user "data") = true /\
   snd (googleCallback pf env src now err user info s)
     = snd (generateTempToken src now (getField user "data") s) /\
   fst (generateTempToken src now (getField user "data") s)
     = Normal (toHex (randomBytes 32 src)) /\
   fst (googleCallback pf env src now err user info s)
     = Normal (Redirect (frontendURLOf env ++ "/oauth-callback?code="
                           ++ toHex (randomBytes 32 src)))).
Proof.
  unfold googleCallback.
  destruct (truthy err) eqn:Herr; [left; reflexivity|].
  destruct (truthy user) eqn:Huser; simpl; [|left; reflexivity].
  destruct (OAuthCallback_cases pf env src now user s)
    as [(Hstatus & Hdata & _ & Hcall & Htok)|Hsame]; [|by left].
  right. apply strictEqStr_true in Hstatus. rewrite Hcall. by repeat split.
Qed.

(* ===================================================================== *)
(** * The gate fails closed *)
(* ===================================================================== *)

(** X11.  Nothing unverified passes.  If the gate calls [next()], it passes
    on the request it was given, the request carries a non-empty user id,
    the one query the gate made was [findById] of that id, and the row it
    returned has [emailVerified] set.  In every other case (no id, lookup
    failure, no row, unset [emailVerified]) the gate has answered itself,
    with a JSON error whose [code] field repeats the HTTP status. *)
Theorem gate_fails_closed db req :
  (forall passed,
      snd (execute db req) = CallsNext passed ->
      passed = req /\
      noUserId req = false /\
      fst (execute db req) = [userIdOf req] /\
      exists row verifiedAt,
        db (userIdOf req) = Resolves (Some row) /\
        emailVerified row = Some verifiedAt) /\
  (forall r,
      snd (execute db req) = Responds r ->
      (httpStatus r = 401 \/ httpStatus r = 403 \/
       httpStatus r = 404 \/ httpStatus r = 500) /\
      getField (body r) "code" = VNum (httpStatus r) /\
      getField (body r) "status" = VStr "error").
Proof.
  unfold execute. destruct (noUserId req) eqn:Hid; simpl.
  - split; [discriminate|]. intros r [= <-]. simpl. by repeat split; auto.
  - destruct (db (userIdOf req)) as [[row|]|reason] eqn:Hdb; simpl.
    + destruct (emailVerified row) as [verifiedAt|] eqn:Hver; simpl.
      * split; [|discriminate]. intros passed [= <-]. repeat split. eauto.
      * split; [discriminate|]. intros r [= <-]. simpl. by repeat split; auto.
    + split; [discriminate|]. intros r [= <-]. simpl. by repeat split; auto.
    + split; [discriminate|]. intros r [= <-]. simpl. by repeat split; auto.
Qed.

Lemma gate_fails_closed_witness :
  (requestOf "verified" = requestOf "verified" /\
   noUserId (requestOf "verified") = false /\
   fst (execute sampleDb (requestOf "verified")) = [userIdOf (requestOf "verified")] /\
   exists row verifiedAt,
     sampleDb (userIdOf (requestOf "verified")) = Resolves (Some row) /\
     emailVerified row = Some verifiedAt) /\
  ((httpStatus (respond 403 (errorBody 403
      "Email verification required. Please verify your email to participate in discussions and favorites.")) = 401 \/
    httpStatus (respond 403 (errorBody 403
      "Email verification required. Please verify your email to participate in discussions and favorites.")) = 403 \/
    httpStatus (respond 403 (errorBody 403
      "Email verification required. Please verify your email to participate in discussions and favorites.")) = 404 \/
    httpStatus (respond 403 (errorBody 403
      "Email verification required. Please verify your email to participate in discussions and favorites.")) = 500) /\
   getField (body (respond 403 (errorBody 403
      "Email verification required. Please verify your email to participate in discussions and favorites."))) "code"
     = VNum 403 /\
   getField (body (respond 403 (errorBody 403
      "Email verification required. Please verify your email to participate in discussions and favorites."))) "status"
     = VStr "error").
Proof.
  split.
  - exact (proj1 (gate_fails_closed sampleDb (requestOf "verified")) _ eq_refl).
  - exact (proj2 (gate_fails_closed sampleDb (requestOf "unverified")) _ eq_refl).
Defined.
